(** * The document pipeline of [nlp/document.go]

    A shallow embedding of the construction entry point [NewDocument], of the
    functional options that configure it and of the two accessors of a
    [Document], together with the part of the Go run time they rely on:
    slices over backing arrays, pointers to heap cells, and panics. *)

From stdpp Require Import base option list gmap strings.

Local Open Scope Z_scope.
Local Open Scope nat_scope.

(** ** Go run time: locations, slices and typed heaps *)

Definition loc := positive.

(** A slice header.  [arr = None] is the nil slice; otherwise [arr] names the
    backing array, of which the slice shows the first [len] elements and may
    grow in place up to [cap]. *)
Record slice := Slice { arr : option loc; len : nat; cap : nat }.

Definition nil_slice : slice := Slice None 0 0.

Section heap.
Context {A : Type}.

(** [h_new h xs] stores [xs] in a backing array that [h] does not use. *)
Definition h_new (h : gmap loc (list A)) (xs : list A) : slice * gmap loc (list A) :=
  let l := fresh (dom h) in
  (Slice (Some l) (length xs) (length xs), <[l := xs]> h).

(** [make([]A, 0, n)]: a fresh array of [n] zero values, none of them shown. *)
Definition h_make (h : gmap loc (list A)) (zero : A) (n : nat) : slice * gmap loc (list A) :=
  let l := fresh (dom h) in
  (Slice (Some l) 0 n, <[l := replicate n zero]> h).

(** The elements a slice shows. *)
Definition h_view (h : gmap loc (list A)) (s : slice) : option (list A) :=
  match arr s with
  | None => Some []
  | Some a =>
      xs ← h !! a;
      if decide (len s ≤ length xs) then Some (take (len s) xs) else None
  end.

(** [s[i] = v]; out of range is a run-time panic ([None]). *)
Definition h_set (h : gmap loc (list A)) (s : slice) (i : nat) (v : A)
  : option (gmap loc (list A)) :=
  if decide (i < len s) then
    a ← arr s; xs ← h !! a; Some (<[a := <[i := v]> xs]> h)
  else None.

(** [append(s, xs...)]: in place while the capacity lasts, otherwise into a
    fresh array that holds exactly the old elements followed by [xs]. *)
Definition h_append (h : gmap loc (list A)) (s : slice) (xs : list A)
  : option (slice * gmap loc (list A)) :=
  if decide (len s + length xs ≤ cap s) then
    match arr s with
    | None => Some (s, h)
    | Some a =>
        old ← h !! a;
        Some (Slice (Some a) (len s + length xs) (cap s),
              <[a := take (len s) old ++ xs ++ drop (len s + length xs) old]> h)
    end
  else
    old ← h_view h s;
    Some (h_new h (old ++ xs)).
End heap.

(** ** Data model *)

(** Modelled from the spec: the [Token] struct is declared outside
    [document.go]; a token carries a surface string, a span and, once tagged,
    a part-of-speech tag (the empty string before tagging). *)
Record Token := mkToken
  { Text : string; SpanStart : Z; SpanEnd : Z; POS : string }.

(** Modelled from the spec: the [Sentence] struct is declared outside
    [document.go]; a sentence is a span over the text. *)
Record Sentence := mkSentence { SentStart : Z; SentEnd : Z }.

Definition zeroToken : Token := mkToken EmptyString 0 0 EmptyString.

Definition hasTag (t : Token) : bool :=
  match POS t with EmptyString => false | _ => true end.

(** The [Tokenizer] interface: a value of it is its one method.  A
    collaborator has no error result, so the only way it can fail is a panic:
    [None]. *)
Record Tokenizer := { Tokenize : string → option (list Token) }.

(** Modelled from the spec: the [Model] struct is declared outside
    [document.go]; it exposes a tagger whose [tag] maps a token sequence to a
    token sequence ([None]: it panics). *)
Record Tagger := { tag : list Token → option (list Token) }.

Record Model := { tagger : Tagger }.

(** Go's [error]: nil or a message. *)
Definition error := option string.

Module DocOpts.
Record t := mk
  { Segment : bool;
    Tag : bool;
    Tokenizer : option Tokenizer }.
End DocOpts.

Module Document.
Record t := mk
  { Model : option Model;
    Text : string;
    sentences : slice;
    tokens : slice }.
End Document.

(** Field assignments [doc.Model = m], [doc.sentences = s], [doc.tokens = s]. *)
Definition set_Model (doc : Document.t) (m : option Model) : Document.t :=
  Document.mk m (Document.Text doc) (Document.sentences doc) (Document.tokens doc).

Definition set_sentences (doc : Document.t) (s : slice) : Document.t :=
  Document.mk (Document.Model doc) (Document.Text doc) s (Document.tokens doc).

Definition set_tokens (doc : Document.t) (s : slice) : Document.t :=
  Document.mk (Document.Model doc) (Document.Text doc) (Document.sentences doc) s.

(** ** The store and the monad of a Go call *)

(** Typed heaps: the cells [*Token] pointers point to, and the backing arrays
    of [[]*Token], [[]Token] and [[]Sentence] slices. *)
Record Store := mkStore
  { cells : gmap loc Token;
    ptrArrs : gmap loc (list loc);
    tokArrs : gmap loc (list Token);
    sentArrs : gmap loc (list Sentence) }.

Definition emptyStore : Store := mkStore ∅ ∅ ∅ ∅.

(** A call runs on a store and either panics ([None]) or returns a value and
    the store it leaves. *)
Definition Run (A : Type) : Type := Store → option (A * Store).

Definition ret {A} (a : A) : Run A := λ st, Some (a, st).

Definition bind {A B} (m : Run A) (k : A → Run B) : Run B :=
  λ st, match m st with
        | Some (a, st') => k a st'
        | None => None
        end.

(** A collaborator's answer, or the panic it raised. *)
Definition lift {A} (o : option A) : Run A :=
  λ st, match o with Some a => Some (a, st) | None => None end.

Declare Scope run_scope.
Delimit Scope run_scope with run.
Notation "'do' x <- m ; k" := (bind m (λ x, k))
  (at level 10, x name, m at level 100, k at level 200) : run_scope.
Local Open Scope run_scope.

Fixpoint foldM {A B} (f : B → A → Run B) (b : B) (l : list A) : Run B :=
  match l with
  | [] => ret b
  | x :: l => do b' <- f b x; foldM f b' l
  end.

(** *** Store operations *)

(** [&Token{...}]: a fresh cell. *)
Definition new_cell (v : Token) : Run loc :=
  λ st, let l := fresh (dom (cells st)) in
        Some (l, mkStore (<[l := v]> (cells st)) (ptrArrs st) (tokArrs st) (sentArrs st)).

(** [*tok]; a nil or dangling pointer panics. *)
Definition deref (p : loc) : Run Token :=
  λ st, lift (cells st !! p) st.

Fixpoint new_cells (vs : list Token) : Run (list loc) :=
  match vs with
  | [] => ret []
  | v :: vs => do p <- new_cell v; do ps <- new_cells vs; ret (p :: ps)
  end.

Fixpoint derefs (ps : list loc) : Run (list Token) :=
  match ps with
  | [] => ret []
  | p :: ps => do v <- deref p; do vs <- derefs ps; ret (v :: vs)
  end.

Definition new_ptrs (ps : list loc) : Run slice :=
  λ st, let '(s, h) := h_new (ptrArrs st) ps in
        Some (s, mkStore (cells st) h (tokArrs st) (sentArrs st)).

Definition view_ptrs (s : slice) : Run (list loc) :=
  λ st, lift (h_view (ptrArrs st) s) st.

Definition append_ptrs (s : slice) (ps : list loc) : Run slice :=
  λ st, match h_append (ptrArrs st) s ps with
        | Some (s', h) => Some (s', mkStore (cells st) h (tokArrs st) (sentArrs st))
        | None => None
        end.

Definition make_tokens (n : nat) : Run slice :=
  λ st, let '(s, h) := h_make (tokArrs st) zeroToken n in
        Some (s, mkStore (cells st) (ptrArrs st) h (sentArrs st)).

Definition append_token (s : slice) (v : Token) : Run slice :=
  λ st, match h_append (tokArrs st) s [v] with
        | Some (s', h) => Some (s', mkStore (cells st) (ptrArrs st) h (sentArrs st))
        | None => None
        end.

Definition set_token (s : slice) (i : nat) (v : Token) : Run unit :=
  λ st, match h_set (tokArrs st) s i v with
        | Some h => Some (tt, mkStore (cells st) (ptrArrs st) h (sentArrs st))
        | None => None
        end.

Definition new_sentences (ss : list Sentence) : Run slice :=
  λ st, let '(s, h) := h_new (sentArrs st) ss in
        Some (s, mkStore (cells st) (ptrArrs st) (tokArrs st) h).

Definition set_sentence (s : slice) (i : nat) (v : Sentence) : Run unit :=
  λ st, match h_set (sentArrs st) s i v with
        | Some h => Some (tt, mkStore (cells st) (ptrArrs st) (tokArrs st) h)
        | None => None
        end.

(** *** Reading the store *)

(** What a caller sees in a [[]Token] and in a [[]Sentence]. *)
Definition shown_tokens (st : Store) (s : slice) : option (list Token) :=
  h_view (tokArrs st) s.

Definition shown_sentences (st : Store) (s : slice) : option (list Sentence) :=
  h_view (sentArrs st) s.

(** A caller that ranges over a slice it holds. *)
Definition read_tokens (s : slice) : Run (list Token) :=
  λ st, lift (shown_tokens st s) st.

Definition read_sentences (s : slice) : Run (list Sentence) :=
  λ st, lift (shown_sentences st s) st.

(** The tokens behind a list of pointers, and behind a [[]*Token]. *)
Fixpoint pointees (st : Store) (ps : list loc) : option (list Token) :=
  match ps with
  | [] => Some []
  | p :: ps => v ← cells st !! p; vs ← pointees st ps; Some (v :: vs)
  end.

Definition tokens_of (st : Store) (s : slice) : option (list Token) :=
  ps ← h_view (ptrArrs st) s; pointees st ps.

(** [st'] keeps everything [st] holds: a call that takes [st] to [st'] has
    only allocated. *)
Definition extends (st st' : Store) : Prop :=
  cells st ⊆ cells st' ∧ ptrArrs st ⊆ ptrArrs st' ∧
  tokArrs st ⊆ tokArrs st' ∧ sentArrs st ⊆ sentArrs st'.

(** ** Functional options *)

(** A [DocOpt] is a closure over the document under construction and the
    working options; it is run for its writes to the two. *)
Definition DocOpt : Type := Document.t → DocOpts.t → Document.t * DocOpts.t.

(** UsingTokenizer specifies the Tokenizer to use. *)
Definition UsingTokenizer (include : option Tokenizer) : DocOpt :=
  λ doc opts,
    (doc, DocOpts.mk (DocOpts.Segment opts) (DocOpts.Tag opts) include).

(** WithTokenization can enable (the default) or disable tokenization. *)
Definition WithTokenization (include : bool) : DocOpt :=
  λ doc opts,
    if negb include
    then (doc, DocOpts.mk (DocOpts.Segment opts) (DocOpts.Tag opts) None)
    else (doc, opts).

(** WithTagging can enable (the default) or disable POS tagging. *)
Definition WithTagging (include : bool) : DocOpt :=
  λ doc opts,
    (doc, DocOpts.mk (DocOpts.Segment opts) include (DocOpts.Tokenizer opts)).

(** WithSegmentation can enable (the default) or disable sentence segmentation. *)
Definition WithSegmentation (include : bool) : DocOpt :=
  λ doc opts,
    (doc, DocOpts.mk include (DocOpts.Tag opts) (DocOpts.Tokenizer opts)).

(** UsingModel installs a model on the document. *)
Definition UsingModel (model : option Model) : DocOpt :=
  λ doc opts, (set_Model doc model, opts).

(** The calls of the five constructors above: the options a caller outside
    the package can build without writing a closure of its own. *)
Inductive OptCall :=
  | CallUsingTokenizer (include : option Tokenizer)
  | CallWithTokenization (include : bool)
  | CallWithTagging (include : bool)
  | CallWithSegmentation (include : bool)
  | CallUsingModel (model : option Model).

Definition docOpt (c : OptCall) : DocOpt :=
  match c with
  | CallUsingTokenizer include => UsingTokenizer include
  | CallWithTokenization include => WithTokenization include
  | CallWithTagging include => WithTagging include
  | CallWithSegmentation include => WithSegmentation include
  | CallUsingModel model => UsingModel model
  end.

(** The loop [for _, applyOpt := range opts { applyOpt(&doc, &base) }]. *)
Definition applyOpts (opts : list DocOpt) (doc : Document.t) (base : DocOpts.t)
  : Document.t * DocOpts.t :=
  foldl (λ st applyOpt, applyOpt (fst st) (snd st)) (doc, base) opts.

(** ** The accessors *)

(** Tokens returns [doc]'s tokens. *)
Definition Tokens (doc : Document.t) : Run slice :=
  do tokens <- make_tokens (len (Document.tokens doc));
  do ptrs <- view_ptrs (Document.tokens doc);
  foldM (λ tokens tok, do v <- deref tok; append_token tokens v) tokens ptrs.

(** Sentences returns [doc]'s sentences. *)
Definition Sentences (doc : Document.t) : Run slice :=
  ret (Document.sentences doc).

(** What a caller does to a [[]Token] it holds: element writes and appends,
    the latter giving it a new header. *)
Inductive TokenWrite :=
  | SetElem (i : nat) (v : Token)
  | AppendElem (v : Token).

Fixpoint write_tokens (ws : list TokenWrite) (s : slice) : Run slice :=
  match ws with
  | [] => ret s
  | SetElem i v :: ws => do _ <- set_token s i v; write_tokens ws s
  | AppendElem v :: ws => do s' <- append_token s v; write_tokens ws s'
  end.

(** ** Construction *)

Section pipeline.
(** What the package supplies from outside [document.go]: the default
    tokenizer, the default model for a tagging setting (a [*Model], so
    possibly nil) and the Punkt segmenter's [segment]. *)
Variable NewIterTokenizer : Tokenizer.
Variable defaultModel : bool → option Model.
Variable segment : string → option (list Sentence).

Definition defaultOpts : DocOpts.t :=
  DocOpts.mk true true (Some NewIterTokenizer).

(** [segmenter.segment(text)]: the sentences come back in a slice of the
    segmenter's making. *)
Definition call_segment (text : string) : Run slice :=
  do ss <- lift (segment text);
  new_sentences ss.

(** [tk.Tokenize(text)]: a slice of pointers to tokens of the tokenizer's
    making.  The tokenizer is taken to make its tokens anew on every call; one
    that hands out the same pointers twice is outside this model. *)
Definition call_Tokenize (tk : Tokenizer) (text : string) : Run slice :=
  do vs <- lift (Tokenize tk text);
  do ps <- new_cells vs;
  new_ptrs ps.

(** [m.tagger.tag(toks)]: the tagger reads the tokens it is given and
    answers with a slice of pointers to the tokens of its result.  The
    document is the only holder of either sequence, so whether the tagger
    writes the tags into the cells it was given or into cells of its own
    cannot be told apart through the document; the result is laid out in
    cells of its own. *)
Definition call_tag (m : Model) (toks : slice) : Run slice :=
  do ps <- view_ptrs toks;
  do vs <- derefs ps;
  do vs' <- lift (tag (tagger m) vs);
  do ps' <- new_cells vs';
  new_ptrs ps'.

(** NewDocument creates a Document according to the user-specified options. *)
Definition NewDocument (text : string) (opts : list DocOpt)
  : Run (Document.t * error) :=
  let pipeError : error := None in
  let doc := Document.mk None text nil_slice nil_slice in
  let base := defaultOpts in
  let '(doc, base) := applyOpts opts doc base in
  let doc :=
    match Document.Model doc with
    | None => set_Model doc (defaultModel (DocOpts.Tag base))
    | Some _ => doc
    end in
  do doc <-
    (if DocOpts.Segment base then
       do s <- call_segment text;
       ret (set_sentences doc s)
     else ret doc);
  do doc <-
    (match DocOpts.Tokenizer base with
     | Some tk =>
         do toks <- call_Tokenize tk text;
         do ps <- view_ptrs toks;
         do s <- append_ptrs (Document.tokens doc) ps;
         ret (set_tokens doc s)
     | None => ret doc
     end);
  do doc <-
    (if DocOpts.Tag base then
       do m <- lift (Document.Model doc);
       do s <- call_tag m (Document.tokens doc);
       ret (set_tokens doc s)
     else ret doc);
  ret (doc, pipeError).

(** *** The two phases, on values *)

(** The first phase: the document and the options as the loop over [opts]
    leaves them. *)
Definition configure (text : string) (opts : list DocOpt) : Document.t * DocOpts.t :=
  applyOpts opts (Document.mk None text nil_slice nil_slice) defaultOpts.

(** The model the pipeline runs with: the installed one, else the default
    for the tagging setting. *)
Definition resolveModel (cfg : Document.t * DocOpts.t) : option Model :=
  match Document.Model cfg.1 with
  | None => defaultModel (DocOpts.Tag cfg.2)
  | Some m => Some m
  end.

(** What the requested stages compute for a configuration: the sentences and
    the tokens, or [None] when a requested collaborator panics (a nil model
    under tagging included). *)
Definition stage_outputs (text : string) (cfg : Document.t * DocOpts.t)
  : option (list Sentence * list Token) :=
  ss ← (if DocOpts.Segment cfg.2 then segment text else Some []);
  ts ← (match DocOpts.Tokenizer cfg.2 with
        | Some tk => Tokenize tk text
        | None => Some []
        end);
  ts' ← (if DocOpts.Tag cfg.2
         then m ← resolveModel cfg; tag (tagger m) ts
         else Some ts);
  Some (ss, ts').

(** *** The settings as the specification words them *)

(** The legacy toggle as the specification has it: installing or removing
    the default tokenizer. *)
Definition WithTokenization_spec (include : bool) : DocOpt :=
  if include then UsingTokenizer (Some NewIterTokenizer) else UsingTokenizer None.

(** The value an option asks for, per setting ([None]: the option is about
    another setting). *)
Definition asks_tokenizer (c : OptCall) : option (option Tokenizer) :=
  match c with
  | CallUsingTokenizer include => Some include
  | CallWithTokenization true => Some (Some NewIterTokenizer)
  | CallWithTokenization false => Some None
  | _ => None
  end.

Definition asks_tagging (c : OptCall) : option bool :=
  match c with CallWithTagging include => Some include | _ => None end.

Definition asks_segmentation (c : OptCall) : option bool :=
  match c with CallWithSegmentation include => Some include | _ => None end.

Definition asks_model (c : OptCall) : option (option Model) :=
  match c with CallUsingModel model => Some model | _ => None end.

(** Last write wins: the value of the last option about a setting, the
    default when there is none. *)
Definition last_asked {V} (asks : OptCall → option V) (default : V)
  (calls : list OptCall) : V :=
  foldl (λ v c, match asks c with Some v' => v' | None => v end) default calls.
End pipeline.

(** *** The tagger's contract *)

(** [b] is [a] with a tag on it. *)
Definition tagged_as (a b : Token) : Prop :=
  Text b = Text a ∧ SpanStart b = SpanStart a ∧ SpanEnd b = SpanEnd a ∧
  hasTag b = true.

(** A tagger answers every sequence with the same tokens, in order, tagged. *)
Definition tagger_contract (tg : Tagger) : Prop :=
  ∀ ts, ∃ ts', tag tg ts = Some ts' ∧ Forall2 tagged_as ts ts'.

(** ** A concrete package, for running the pipeline *)

Definition tok (s : string) (a b : Z) : Token := mkToken s a b EmptyString.

(** A tokenizer that knows two texts. *)
Definition demoTokenizer : Tokenizer :=
  {| Tokenize := λ text,
       if String.eqb text "Run!" then Some [tok "Run" 0 3; tok "!" 3 4]
       else if String.eqb text "text" then Some [tok "text" 0 4]
       else Some [] |}.

(** A tokenizer that panics. *)
Definition brokenTokenizer : Tokenizer := {| Tokenize := λ _, None |}.

(** A tagger that takes every token for a noun. *)
Definition demoTagger : Tagger :=
  {| tag := λ ts,
       Some (map (λ t, mkToken (Text t) (SpanStart t) (SpanEnd t) "NN") ts) |}.

Definition demoModel : Model := {| tagger := demoTagger |}.

Definition demoDefaultModel (tagging : bool) : option Model := Some demoModel.

(** A segmenter that takes a non-empty text for one sentence. *)
Definition demoSegment (text : string) : option (list Sentence) :=
  match text with
  | EmptyString => Some []
  | _ => Some [mkSentence 0 (Z.of_nat (String.length text))]
  end.

Definition demoNew : string → list DocOpt → Run (Document.t * error) :=
  NewDocument demoTokenizer demoDefaultModel demoSegment.


(** A caller that reads the sentences of a document, overwrites the first
    element of the slice it got and reads the sentences again; it returns
    both readings. *)
Definition sentences_probe : Run (list Sentence * list Sentence) :=
  do r <- demoNew "Run!" [];
  do s <- Sentences r.1;
  do before <- read_sentences s;
  do _ <- set_sentence s 0 (mkSentence 7 9);
  do s' <- Sentences r.1;
  do after <- read_sentences s';
  ret (before, after).

(** The same caller, on the tokens. *)
Definition tokens_probe : Run (list Token * list Token) :=
  do r <- demoNew "Run!" [];
  do s <- Tokens r.1;
  do before <- read_tokens s;
  do _ <- set_token s 0 zeroToken;
  do s' <- Tokens r.1;
  do after <- read_tokens s';
  ret (before, after).

(** ** The settings the options write *)

(** The four things an option can be about. *)
Inductive Setting := TheTokenizer | TheTagging | TheSegmentation | TheModel.

#[global] Instance Setting_eq_dec : EqDecision Setting.
Proof. solve_decision. Defined.

Definition setting_of (c : OptCall) : Setting :=
  match c with
  | CallUsingTokenizer _ | CallWithTokenization _ => TheTokenizer
  | CallWithTagging _ => TheTagging
  | CallWithSegmentation _ => TheSegmentation
  | CallUsingModel _ => TheModel
  end.

(** What an option assigns to [opts.Tokenizer], read off the two closures
    ([None]: no assignment).  [WithTokenization(true)] assigns nothing. *)
Definition writes_tokenizer (c : OptCall) : option (option Tokenizer) :=
  match c with
  | CallUsingTokenizer include => Some include
  | CallWithTokenization false => Some None
  | _ => None
  end.

(** The calls [WithTokenization(true)]. *)
Definition enables (c : OptCall) : bool :=
  match c with CallWithTokenization true => true | _ => false end.

(** A segmenter that panics, and a package without a default model. *)
Definition brokenSegment (text : string) : option (list Sentence) := None.

Definition noDefaultModel (tagging : bool) : option Model := None.

(** A model whose tagger leaves the tokens as they are, and a package whose
    default model depends on the tagging setting. *)
Definition plainTagger : Tagger := {| tag := λ ts, Some ts |}.

Definition plainModel : Model := {| tagger := plainTagger |}.

Definition switchingDefaultModel (tagging : bool) : option Model :=
  Some (if tagging then demoModel else plainModel).

(** ** What an option list asks for *)

(** The outputs of the stages an option list asks for, read off the list
    alone: each setting is the one of the last option about it, as the
    specification words the options ([WithTokenization(true)] asking for the
    default tokenizer), the default when no option is about it.  [None]: a
    stage that was asked for panics. *)
Definition requested_outputs (dflt : Tokenizer) (defaultModel : bool → option Model)
    (segment : string → option (list Sentence)) (text : string)
    (calls : list OptCall) : option (list Sentence * list Token) :=
  ss ← (if last_asked asks_segmentation true calls then segment text else Some []);
  ts ← (match last_asked (asks_tokenizer dflt) (Some dflt) calls with
        | Some tk => Tokenize tk text
        | None => Some []
        end);
  ts' ← (if last_asked asks_tagging true calls
         then m ← (match last_asked asks_model None calls with
                   | Some m => Some m
                   | None => defaultModel true
                   end);
              tag (tagger m) ts
         else Some ts);
  Some (ss, ts').

(** ** Facts about the run time *)

Lemma fresh_unused {V} (h : gmap loc V) : h !! fresh (dom h) = None.
Proof. apply not_elem_of_dom, is_fresh. Qed.

Section heap_facts.
Context {A : Type}.
Implicit Types (h : gmap loc (list A)) (s : slice) (xs : list A).

Lemma h_new_keeps h xs : h ⊆ (h_new h xs).2.
Proof. apply insert_subseteq, fresh_unused. Qed.

Lemma h_view_length h s xs : h_view h s = Some xs → length xs ≤ len s.
Proof.
  unfold h_view. destruct (arr s) as [a|]; simpl.
  - destruct (h !! a) as [ys|]; simpl; [|discriminate].
    case_decide; [|discriminate]. intros [= <-]. rewrite length_take. lia.
  - intros [= <-]. simpl. lia.
Qed.

Lemma h_view_mono h h' s xs :
  h ⊆ h' → h_view h s = Some xs → h_view h' s = Some xs.
Proof.
  unfold h_view. intros Hsub. destruct (arr s) as [a|]; [|done].
  destruct (h !! a) as [ys|] eqn:Ha; simpl; [|discriminate].
  by rewrite (lookup_weaken _ _ _ _ Ha Hsub).
Qed.

Lemma h_new_view h xs : h_view (h_new h xs).2 (h_new h xs).1 = Some xs.
Proof.
  unfold h_view, h_new. simpl. rewrite lookup_insert_eq. simpl.
  rewrite decide_True by lia. by rewrite firstn_all.
Qed.

Lemma h_append_nil h xs :
  h_append h nil_slice xs =
    match xs with [] => Some (nil_slice, h) | _ => Some (h_new h xs) end.
Proof. destruct xs; reflexivity. Qed.

(** An in-range element write shows in the slice it was made through. *)
Lemma h_set_view h s i v xs :
  h_view h s = Some xs → i < length xs →
  ∃ h', h_set h s i v = Some h' ∧ h_view h' s = Some (<[i := v]> xs).
Proof.
  unfold h_view, h_set. intros Hv Hi.
  destruct (arr s) as [a|]; simpl in *; [|injection Hv as <-; simpl in Hi; lia].
  destruct (h !! a) as [ys|] eqn:Ha; simpl in *; [|discriminate].
  case_decide as Hl; [|discriminate]. injection Hv as <-.
  rewrite length_take in Hi.
  rewrite decide_True by lia. eexists; split; [reflexivity|].
  rewrite lookup_insert_eq. simpl. rewrite length_insert, decide_True by done.
  f_equal. rewrite take_insert_lt by lia. reflexivity.
Qed.

(** The step of filling a made array: appending to the first [k] elements
    of an array with room left writes element [k] in place. *)
Lemma h_append_fill h l (zero v : A) vs n :
  h !! l = Some (vs ++ replicate (n - length vs) zero) →
  length vs < n →
  h_append h (Slice (Some l) (length vs) n) [v] =
    Some (Slice (Some l) (length (vs ++ [v])) n,
          <[l := (vs ++ [v]) ++ replicate (n - length (vs ++ [v])) zero]> h).
Proof.
  intros Hl Hn. unfold h_append. simpl.
  rewrite decide_True by lia. rewrite Hl. simpl.
  rewrite length_app. simpl. do 3 f_equal.
  rewrite take_app_length. rewrite <- app_assoc. f_equal. simpl. f_equal.
  rewrite drop_app_ge by lia. rewrite drop_replicate. f_equal. lia.
Qed.
End heap_facts.

(** ** Facts about the store *)

Lemma bind_ret {A B} (m : Run A) (k : A → Run B) st a st' :
  m st = Some (a, st') → bind m k st = k a st'.
Proof. unfold bind. by intros ->. Qed.

Lemma bind_panic {A B} (m : Run A) (k : A → Run B) st :
  m st = None → bind m k st = None.
Proof. unfold bind. by intros ->. Qed.

Lemma bind_bind {A B C} (m : Run A) (f : A → Run B) (g : B → Run C) st :
  bind (bind m f) g st = bind m (λ a, bind (f a) g) st.
Proof. unfold bind. by destruct (m st) as [[a st']|]. Qed.

Lemma bind_lift {A B} (o : option A) (k : A → Run B) st :
  bind (lift o) k st = match o with Some a => k a st | None => None end.
Proof. by destruct o. Qed.

Lemma extends_refl st : extends st st.
Proof. by repeat split. Qed.

Lemma extends_trans st1 st2 st3 :
  extends st1 st2 → extends st2 st3 → extends st1 st3.
Proof.
  intros (?&?&?&?) (?&?&?&?). repeat split; etrans; eassumption.
Qed.

Lemma pointees_mono st st' ps vs :
  cells st ⊆ cells st' → pointees st ps = Some vs → pointees st' ps = Some vs.
Proof.
  intros Hsub. revert vs. induction ps as [|p ps IH]; intros vs; simpl; [done|].
  destruct (cells st !! p) as [v|] eqn:Hp; simpl; [|discriminate].
  rewrite (lookup_weaken _ _ _ _ Hp Hsub). simpl.
  destruct (pointees st ps) as [ws|]; simpl; [|discriminate].
  intros [= <-]. by rewrite (IH ws).
Qed.

Lemma shown_sentences_mono st st' s ss :
  extends st st' → shown_sentences st s = Some ss → shown_sentences st' s = Some ss.
Proof. intros (_ & _ & _ & Hs). by apply h_view_mono. Qed.

(** Reading through a list of pointers is reading their cells. *)
Lemma derefs_run ps st : derefs ps st = lift (pointees st ps) st.
Proof.
  induction ps as [|p ps IH]; simpl; [done|].
  unfold bind, deref, lift at 1. destruct (cells st !! p) as [v|]; simpl; [|done].
  rewrite IH. unfold lift. by destruct (pointees st ps).
Qed.

(** Allocation never fails, hands out cells that hold the values, and keeps
    the rest of the store. *)
Lemma new_cells_run vs st :
  ∃ ps st', new_cells vs st = Some (ps, st') ∧ pointees st' ps = Some vs ∧
            extends st st'.
Proof.
  revert st. induction vs as [|v vs IH]; intros st; simpl.
  - exists [], st. auto using extends_refl.
  - set (l := fresh (dom (cells st))).
    set (st1 := mkStore (<[l := v]> (cells st)) (ptrArrs st) (tokArrs st) (sentArrs st)).
    destruct (IH st1) as (ps & st' & Hrun & Hps & Hext).
    exists (l :: ps), st'. split; [|split].
    + unfold bind, new_cell. fold l st1. rewrite Hrun. reflexivity.
    + simpl. destruct Hext as (Hc & _).
      assert (cells st1 !! l = Some v) as Hl by apply lookup_insert_eq.
      rewrite (lookup_weaken _ _ _ _ Hl Hc). simpl. by rewrite Hps.
    + eapply extends_trans; [|exact Hext].
      repeat split; simpl; try done. apply insert_subseteq, fresh_unused.
Qed.

Lemma new_ptrs_run ps st :
  ∃ s st', new_ptrs ps st = Some (s, st') ∧
           h_view (ptrArrs st') s = Some ps ∧ cells st' = cells st ∧
           extends st st'.
Proof.
  unfold new_ptrs. destruct (h_new (ptrArrs st) ps) as [s h] eqn:Hn.
  eexists _, _. split; [reflexivity|]. simpl.
  pose proof (h_new_view (ptrArrs st) ps) as Hv.
  pose proof (h_new_keeps (ptrArrs st) ps) as Hk.
  rewrite Hn in Hv, Hk. simpl in *. repeat split; done.
Qed.

Lemma new_sentences_run ss st :
  ∃ s st', new_sentences ss st = Some (s, st') ∧
           shown_sentences st' s = Some ss ∧ extends st st'.
Proof.
  unfold new_sentences, shown_sentences.
  destruct (h_new (sentArrs st) ss) as [s h] eqn:Hn.
  eexists _, _. split; [reflexivity|]. simpl.
  pose proof (h_new_view (sentArrs st) ss) as Hv.
  pose proof (h_new_keeps (sentArrs st) ss) as Hk.
  rewrite Hn in Hv, Hk. simpl in *. repeat split; done.
Qed.

(** Pointers laid out in a fresh slice denote the tokens they point to. *)
Lemma new_tokens_run vs st :
  ∃ s st', (do ps <- new_cells vs; new_ptrs ps) st = Some (s, st') ∧
           tokens_of st' s = Some vs ∧ extends st st'.
Proof.
  destruct (new_cells_run vs st) as (ps & st1 & Hc & Hps & He1).
  destruct (new_ptrs_run ps st1) as (s & st2 & Hp & Hv & Hcells & He2).
  exists s, st2. split; [|split].
  - by rewrite (bind_ret _ _ _ _ _ Hc).
  - unfold tokens_of. rewrite Hv. simpl.
    eapply pointees_mono; [|exact Hps]. by rewrite Hcells.
  - by eapply extends_trans.
Qed.

(** Appending pointers to the nil slice keeps what they denote. *)
Lemma append_ptrs_nil ps st vs :
  pointees st ps = Some vs →
  ∃ s st', append_ptrs nil_slice ps st = Some (s, st') ∧
           tokens_of st' s = Some vs ∧ extends st st'.
Proof.
  intros Hps. unfold append_ptrs. rewrite h_append_nil.
  destruct ps as [|p ps].
  - injection Hps as <-. exists nil_slice, st.
    destruct st; simpl. auto using extends_refl.
  - destruct (h_new (ptrArrs st) (p :: ps)) as [s h] eqn:Hn.
    pose proof (h_new_view (ptrArrs st) (p :: ps)) as Hv.
    pose proof (h_new_keeps (ptrArrs st) (p :: ps)) as Hk.
    rewrite Hn in Hv, Hk. simpl in Hv, Hk.
    eexists _, _. split; [reflexivity|]. split.
    + unfold tokens_of. cbn [ptrArrs]. rewrite Hv.
      apply (pointees_mono st); done.
    + repeat split; done.
Qed.

(** ** The pipeline, stage by stage *)

(** The constructors' options write neither the text nor the two sequences
    of the document under construction. *)
Lemma applyOpts_calls calls doc base :
  let cfg := applyOpts (map docOpt calls) doc base in
  Document.Text cfg.1 = Document.Text doc ∧
  Document.sentences cfg.1 = Document.sentences doc ∧
  Document.tokens cfg.1 = Document.tokens doc.
Proof.
  revert doc base. induction calls as [|c calls IH]; intros doc base; [done|].
  unfold applyOpts in *. simpl.
  destruct (docOpt c doc base) as [doc1 base1] eqn:Hc.
  specialize (IH doc1 base1). simpl in IH.
  assert (Document.Text doc1 = Document.Text doc ∧
          Document.sentences doc1 = Document.sentences doc ∧
          Document.tokens doc1 = Document.tokens doc) as (E1 & E2 & E3).
  { destruct c as [?|[]|?|?|?]; simpl in Hc; injection Hc as <- <-; done. }
  rewrite <- E1, <- E2, <- E3. exact IH.
Qed.

Section pipeline_facts.
Variable NewIterTokenizer : Tokenizer.
Variable defaultModel : bool → option Model.
Variable segment : string → option (list Sentence).

Lemma configure_calls text calls :
  let cfg := configure NewIterTokenizer text (map docOpt calls) in
  Document.Text cfg.1 = text ∧
  Document.sentences cfg.1 = nil_slice ∧
  Document.tokens cfg.1 = nil_slice.
Proof. apply applyOpts_calls. Qed.

Lemma segment_stage text (doc : Document.t) (segmenting : bool) st :
  match (if segmenting then segment text else Some []) with
  | None =>
      (if segmenting
       then do s <- call_segment segment text; ret (set_sentences doc s)
       else ret doc) st = None
  | Some ss =>
      Document.sentences doc = nil_slice →
      ∃ s st',
        (if segmenting
         then do s <- call_segment segment text; ret (set_sentences doc s)
         else ret doc) st = Some (set_sentences doc s, st') ∧
        shown_sentences st' s = Some ss ∧ extends st st'
  end.
Proof.
  destruct segmenting.
  - unfold call_segment. rewrite bind_bind, bind_lift.
    destruct (segment text) as [ss|]; [|done]. intros _.
    destruct (new_sentences_run ss st) as (s & st' & Hrun & Hv & He).
    exists s, st'. by rewrite (bind_ret _ _ _ _ _ Hrun).
  - intros Hnil. exists nil_slice, st. split; [|split].
    + unfold ret. do 2 f_equal. destruct doc; simpl in *. by subst.
    + reflexivity.
    + apply extends_refl.
Qed.

Lemma Tokenize_stage text (doc : Document.t) (tokenizer : option Tokenizer) st :
  Document.tokens doc = nil_slice →
  match (match tokenizer with Some tk => Tokenize tk text | None => Some [] end) with
  | None =>
      (match tokenizer with
       | Some tk =>
           do toks <- call_Tokenize tk text;
           do ps <- view_ptrs toks;
           do s <- append_ptrs (Document.tokens doc) ps;
           ret (set_tokens doc s)
       | None => ret doc
       end) st = None
  | Some ts =>
      ∃ s st',
        (match tokenizer with
         | Some tk =>
             do toks <- call_Tokenize tk text;
             do ps <- view_ptrs toks;
             do s <- append_ptrs (Document.tokens doc) ps;
             ret (set_tokens doc s)
         | None => ret doc
         end) st = Some (set_tokens doc s, st') ∧
        tokens_of st' s = Some ts ∧ extends st st'
  end.
Proof.
  intros Hnil. destruct tokenizer as [tk|].
  - unfold call_Tokenize. rewrite bind_bind, bind_lift.
    destruct (Tokenize tk text) as [ts|]; [|done].
    destruct (new_tokens_run ts st) as (toks & st1 & Hrun & Hts & He1).
    unfold tokens_of in Hts.
    destruct (h_view (ptrArrs st1) toks) as [ps|] eqn:Hps; [|discriminate].
    simpl in Hts.
    destruct (append_ptrs_nil ps st1 ts Hts) as (s & st2 & Happ & Hs & He2).
    exists s, st2. split; [|split; [done|by eapply extends_trans]].
    rewrite (bind_ret _ _ _ _ _ Hrun).
    unfold bind, view_ptrs, lift. rewrite Hps, Hnil, Happ. reflexivity.
  - exists nil_slice, st. split; [|split].
    + unfold ret. do 2 f_equal. destruct doc; simpl in *. by subst.
    + reflexivity.
    + apply extends_refl.
Qed.

Lemma call_tag_run m s st ts :
  tokens_of st s = Some ts →
  match tag (tagger m) ts with
  | None => call_tag m s st = None
  | Some ts' =>
      ∃ s' st', call_tag m s st = Some (s', st') ∧
                tokens_of st' s' = Some ts' ∧ extends st st'
  end.
Proof.
  intros Hts. unfold tokens_of in Hts. unfold call_tag.
  destruct (h_view (ptrArrs st) s) as [ps|] eqn:Hps; [|discriminate].
  simpl in Hts.
  assert (view_ptrs s st = Some (ps, st)) as Hview
    by (unfold view_ptrs; by rewrite Hps).
  assert (derefs ps st = Some (ts, st)) as Hder
    by (by rewrite derefs_run, Hts).
  rewrite (bind_ret _ _ _ _ _ Hview), (bind_ret _ _ _ _ _ Hder), bind_lift.
  destruct (tag (tagger m) ts) as [ts'|]; [|done].
  apply new_tokens_run.
Qed.

(** The pipeline in one piece: [NewDocument] panics exactly when a requested
    stage does, and otherwise returns, with a nil error, a document that
    holds the resolved model, the text and the outputs of the requested
    stages, in a store that keeps everything the old one held. *)
Lemma NewDocument_run text calls st :
  let cfg := configure NewIterTokenizer text (map docOpt calls) in
  match stage_outputs defaultModel segment text cfg with
  | None =>
      NewDocument NewIterTokenizer defaultModel segment text (map docOpt calls) st
      = None
  | Some (ss, ts) =>
      ∃ doc st',
        NewDocument NewIterTokenizer defaultModel segment text (map docOpt calls) st
        = Some ((doc, None), st') ∧
        Document.Model doc = resolveModel defaultModel cfg ∧
        Document.Text doc = text ∧
        shown_sentences st' (Document.sentences doc) = Some ss ∧
        tokens_of st' (Document.tokens doc) = Some ts ∧
        extends st st'
  end.
Proof.
  intros cfg. destruct (configure_calls text calls) as (HT & HS & HK).
  fold cfg in HT, HS, HK.
  unfold NewDocument, stage_outputs, resolveModel.
  change (applyOpts (map docOpt calls) _ _) with cfg.
  destruct cfg as [doc0 b]. simpl in HT, HS, HK. cbn [fst snd].
  set (doc1 := match Document.Model doc0 with
               | Some _ => doc0
               | None => set_Model doc0 (defaultModel (DocOpts.Tag b))
               end).
  assert (Document.Model doc1 =
          match Document.Model doc0 with
          | None => defaultModel (DocOpts.Tag b)
          | Some m => Some m
          end ∧ Document.Text doc1 = text ∧
          Document.sentences doc1 = nil_slice ∧
          Document.tokens doc1 = nil_slice) as (HM1 & HT1 & HS1 & HK1).
  { subst doc1. destruct (Document.Model doc0) eqn:E; simpl; auto. }
  clearbody doc1.
  pose proof (segment_stage text doc1 (DocOpts.Segment b) st) as H1.
  destruct (if DocOpts.Segment b then segment text else Some []) as [ss|];
    simpl; [|by rewrite (bind_panic _ _ _ H1)].
  destruct (H1 HS1) as (s1 & st1 & Hrun1 & Hss & He1).
  rewrite (bind_ret _ _ _ _ _ Hrun1).
  pose proof (Tokenize_stage text (set_sentences doc1 s1) (DocOpts.Tokenizer b)
                st1 HK1) as H2.
  destruct (match DocOpts.Tokenizer b with
            | Some tk => Tokenize tk text
            | None => Some []
            end) as [ts|]; simpl; [|by rewrite (bind_panic _ _ _ H2)].
  destruct H2 as (s2 & st2 & Hrun2 & Hts & He2).
  rewrite (bind_ret _ _ _ _ _ Hrun2).
  assert (extends st st2) as He by (by eapply extends_trans).
  destruct (DocOpts.Tag b).
  - rewrite bind_bind, bind_lift. simpl. rewrite HM1.
    destruct (match Document.Model doc0 with
              | Some m => Some m
              | None => defaultModel true
              end) as [m|]; simpl; [|done].
    pose proof (call_tag_run m s2 st2 ts Hts) as H3. rewrite bind_bind.
    destruct (tag (tagger m) ts) as [ts'|]; simpl;
      [|by rewrite (bind_panic _ _ _ H3)].
    destruct H3 as (s3 & st3 & Hrun3 & Hts' & He3).
    rewrite (bind_ret _ _ _ _ _ Hrun3).
    eexists _, st3. split; [reflexivity|]. simpl.
    split_and!; try done.
    + eapply shown_sentences_mono; [|exact Hss]. by eapply extends_trans.
    + by eapply extends_trans.
  - eexists _, st2. split; [reflexivity|]. simpl.
    split_and!; try done.
    eapply shown_sentences_mono; [exact He2|exact Hss].
Qed.
End pipeline_facts.

(** ** The accessors *)

Lemma pointees_cells st st' ps :
  cells st' = cells st → pointees st' ps = pointees st ps.
Proof. intros E. induction ps as [|p ps IH]; simpl; [done|]. by rewrite E, IH. Qed.

Lemma tokens_of_cells st st' s :
  cells st' = cells st → ptrArrs st' = ptrArrs st →
  tokens_of st' s = tokens_of st s.
Proof.
  intros Ec Ep. unfold tokens_of. rewrite Ep.
  destruct (h_view (ptrArrs st) s); simpl; [|done]. by apply pointees_cells.
Qed.

(** The loop of [Tokens]: with [filled] already copied into the made array
    and room for the rest, the loop copies the pointees of [ps] behind them,
    in place, and panics only on a pointer without a cell. *)
Lemma Tokens_loop l n ps : ∀ filled st,
  tokArrs st !! l = Some (filled ++ replicate (n - length filled) zeroToken) →
  length filled + length ps ≤ n →
  match pointees st ps with
  | None =>
      foldM (λ tokens tok, do v <- deref tok; append_token tokens v)
        (Slice (Some l) (length filled) n) ps st = None
  | Some vs =>
      ∃ st',
        foldM (λ tokens tok, do v <- deref tok; append_token tokens v)
          (Slice (Some l) (length filled) n) ps st
        = Some (Slice (Some l) (length (filled ++ vs)) n, st') ∧
        tokArrs st' =
          <[l := (filled ++ vs) ++ replicate (n - length (filled ++ vs)) zeroToken]>
            (tokArrs st) ∧
        cells st' = cells st ∧ ptrArrs st' = ptrArrs st ∧
        sentArrs st' = sentArrs st
  end.
Proof.
  induction ps as [|p ps IH]; intros filled st Hl Hn; simpl.
  - exists st. rewrite app_nil_r. split_and!; try done.
    by rewrite insert_id.
  - simpl in Hn.
    destruct (cells st !! p) as [v|] eqn:Hp; simpl;
      [|by apply bind_panic, bind_panic; unfold deref, lift; rewrite Hp].
    pose proof (h_append_fill (tokArrs st) l zeroToken v filled n Hl) as Happ.
    set (st1 := mkStore (cells st) (ptrArrs st)
                  (<[l := (filled ++ [v]) ++
                          replicate (n - length (filled ++ [v])) zeroToken]>
                     (tokArrs st)) (sentArrs st)).
    assert ((do v <- deref p; append_token (Slice (Some l) (length filled) n) v) st
            = Some (Slice (Some l) (length (filled ++ [v])) n, st1)) as Hstep.
    { unfold bind, deref, lift, append_token. rewrite Hp, Happ by lia. reflexivity. }
    rewrite (bind_ret _ _ _ _ _ Hstep). clear Hstep.
    specialize (IH (filled ++ [v]) st1).
    rewrite (pointees_cells st st1) in IH by done.
    destruct (pointees st ps) as [vs|]; simpl.
    + destruct IH as (st' & Hrun & Ht & Hc & Hpa & Hs).
      { simpl. by rewrite lookup_insert_eq. }
      { rewrite length_app. simpl. lia. }
      exists st'.
      replace ((filled ++ [v]) ++ vs) with (filled ++ v :: vs) in Hrun, Ht
        by (by rewrite <- app_assoc).
      split_and!; try done.
      rewrite Ht. simpl. by rewrite insert_insert_eq.
    + apply IH.
      * simpl. by rewrite lookup_insert_eq.
      * rewrite length_app. simpl. lia.
Qed.

(** [Tokens] panics only on a document whose pointers dangle; otherwise it
    returns a slice that shows the document's tokens, over an array of its
    own, and leaves the rest of the store as it was. *)
Lemma Tokens_run doc st :
  match tokens_of st (Document.tokens doc) with
  | None => Tokens doc st = None
  | Some vs =>
      ∃ s st', Tokens doc st = Some (s, st') ∧
               shown_tokens st' s = Some vs ∧
               cells st' = cells st ∧ ptrArrs st' = ptrArrs st ∧
               sentArrs st' = sentArrs st ∧ extends st st'
  end.
Proof.
  unfold tokens_of, Tokens.
  set (n := len (Document.tokens doc)).
  set (l := fresh (dom (tokArrs st))).
  set (st1 := mkStore (cells st) (ptrArrs st)
                (<[l := replicate n zeroToken]> (tokArrs st)) (sentArrs st)).
  assert (make_tokens n st = Some (Slice (Some l) 0 n, st1)) as Hmake by done.
  rewrite (bind_ret _ _ _ _ _ Hmake).
  destruct (h_view (ptrArrs st) (Document.tokens doc)) as [ps|] eqn:Hps; simpl;
    [|by unfold bind, view_ptrs, lift; simpl; rewrite Hps].
  assert (view_ptrs (Document.tokens doc) st1 = Some (ps, st1)) as Hview
    by (unfold view_ptrs; simpl; by rewrite Hps).
  rewrite (bind_ret _ _ _ _ _ Hview).
  pose proof (Tokens_loop l n ps [] st1) as Hloop.
  rewrite (pointees_cells st st1) in Hloop by done. simpl in Hloop.
  destruct (pointees st ps) as [vs|] eqn:Hvs.
  - destruct Hloop as (st' & Hrun & Ht & Hc & Hpa & Hs).
    { rewrite lookup_insert_eq. f_equal. f_equal. lia. }
    { apply h_view_length in Hps. subst n. lia. }
    eexists _, st'. split; [exact Hrun|]. split_and!; try done.
    + unfold shown_tokens, h_view. simpl. rewrite Ht, lookup_insert_eq. simpl.
      rewrite decide_True by (rewrite length_app; lia).
      by rewrite take_app_length.
    + split_and!; try (by rewrite ?Hc, ?Hpa, ?Hs).
      rewrite Ht. simpl. rewrite insert_insert_eq.
      apply insert_subseteq, fresh_unused.
  - apply Hloop.
    + rewrite lookup_insert_eq. f_equal. f_equal. lia.
    + apply h_view_length in Hps. subst n. lia.
Qed.

(** ** What a run of [NewDocument] returns *)

Lemma bind_inv {A B} (m : Run A) (k : A → Run B) st b st' :
  bind m k st = Some (b, st') →
  ∃ a st1, m st = Some (a, st1) ∧ k a st1 = Some (b, st').
Proof.
  unfold bind. destruct (m st) as [[a st1]|]; [|discriminate]. eauto.
Qed.

Lemma Tokens_returns doc st vs :
  tokens_of st (Document.tokens doc) = Some vs →
  ∃ s st', Tokens doc st = Some (s, st') ∧ shown_tokens st' s = Some vs ∧
           cells st' = cells st ∧ ptrArrs st' = ptrArrs st ∧
           sentArrs st' = sentArrs st.
Proof.
  intros H. pose proof (Tokens_run doc st) as Hrun. rewrite H in Hrun.
  destruct Hrun as (s & st' & ? & ? & ? & ? & ? & _). by exists s, st'.
Qed.

(** What a caller writes through a [[]Token] stays in the arrays of
    [[]Token]s. *)
Lemma write_tokens_frame ws : ∀ s st s' st',
  write_tokens ws s st = Some (s', st') →
  cells st' = cells st ∧ ptrArrs st' = ptrArrs st ∧ sentArrs st' = sentArrs st.
Proof.
  induction ws as [|[i v|v] ws IH]; intros s st s' st' H; simpl in H.
  - by injection H as <- <-.
  - apply bind_inv in H as ([] & st1 & Hset & H).
    apply IH in H as (-> & -> & ->).
    unfold set_token in Hset.
    destruct (h_set (tokArrs st) s i v); [|discriminate].
    by injection Hset as <-.
  - apply bind_inv in H as (s1 & st1 & Happ & H).
    apply IH in H as (-> & -> & ->).
    unfold append_token in Happ.
    destruct (h_append (tokArrs st) s [v]) as [[]|]; [|discriminate].
    by injection Happ as _ <-.
Qed.

Lemma applyOpts_tagging calls : ∀ doc base,
  DocOpts.Tag (applyOpts (map docOpt calls) doc base).2
  = last_asked asks_tagging (DocOpts.Tag base) calls.
Proof.
  unfold applyOpts, last_asked.
  induction calls as [|c calls IH]; intros doc base; [done|]. simpl.
  destruct (docOpt c doc base) as [doc1 base1] eqn:Hc. rewrite IH. f_equal.
  destruct c as [?|[]|?|?|?]; simpl in *; by injection Hc as <- <-.
Qed.

Lemma applyOpts_segmentation calls : ∀ doc base,
  DocOpts.Segment (applyOpts (map docOpt calls) doc base).2
  = last_asked asks_segmentation (DocOpts.Segment base) calls.
Proof.
  unfold applyOpts, last_asked.
  induction calls as [|c calls IH]; intros doc base; [done|]. simpl.
  destruct (docOpt c doc base) as [doc1 base1] eqn:Hc. rewrite IH. f_equal.
  destruct c as [?|[]|?|?|?]; simpl in *; by injection Hc as <- <-.
Qed.

Lemma applyOpts_model calls : ∀ doc base,
  Document.Model (applyOpts (map docOpt calls) doc base).1
  = last_asked asks_model (Document.Model doc) calls.
Proof.
  unfold applyOpts, last_asked.
  induction calls as [|c calls IH]; intros doc base; [done|]. simpl.
  destruct (docOpt c doc base) as [doc1 base1] eqn:Hc. rewrite IH. f_equal.
  destruct c as [?|[]|?|?|?]; simpl in *; by injection Hc as <- <-.
Qed.

(** Without [WithTokenization(true)] among them, the options about the
    tokenizer obey last-write-wins too. *)
Lemma applyOpts_tokenizer dflt calls : ∀ doc base,
  CallWithTokenization true ∉ calls →
  DocOpts.Tokenizer (applyOpts (map docOpt calls) doc base).2
  = last_asked (asks_tokenizer dflt) (DocOpts.Tokenizer base) calls.
Proof.
  unfold applyOpts, last_asked.
  induction calls as [|c calls IH]; intros doc base Hno; [done|]. simpl.
  destruct (docOpt c doc base) as [doc1 base1] eqn:Hc.
  rewrite IH by (intros ?; apply Hno; by right). f_equal.
  destruct c as [?|[]|?|?|?]; simpl in *; try (by injection Hc as <- <-).
  exfalso. apply Hno. by left.
Qed.

(** X4: last write wins, for every setting, on the option lists that do not
    call [WithTokenization(true)]: the tokenizer, the tagging flag, the
    segmentation flag and the model are those of the last option about
    each, the default when there is none. *)
Lemma configure_last_write_wins dflt text calls :
  CallWithTokenization true ∉ calls →
  DocOpts.Tokenizer (configure dflt text (map docOpt calls)).2
  = last_asked (asks_tokenizer dflt) (Some dflt) calls ∧
  DocOpts.Tag (configure dflt text (map docOpt calls)).2
  = last_asked asks_tagging true calls ∧
  DocOpts.Segment (configure dflt text (map docOpt calls)).2
  = last_asked asks_segmentation true calls ∧
  Document.Model (configure dflt text (map docOpt calls)).1
  = last_asked asks_model None calls.
Proof.
  intros Hno. unfold configure. split_and!.
  - by rewrite (applyOpts_tokenizer dflt).
  - by rewrite applyOpts_tagging.
  - by rewrite applyOpts_segmentation.
  - by rewrite applyOpts_model.
Qed.

(** The legacy toggle does what the specification says of it when it
    disables, and when the default tokenizer is the one in effect. *)
Lemma WithTokenization_false dflt doc opts :
  WithTokenization false doc opts = WithTokenization_spec dflt false doc opts.
Proof. reflexivity. Qed.

Lemma WithTokenization_true_on_default dflt doc opts :
  DocOpts.Tokenizer opts = Some dflt →
  WithTokenization true doc opts = WithTokenization_spec dflt true doc opts.
Proof. destruct opts as [? ? ?]. simpl. by intros ->. Qed.

Lemma demoTagger_contract : tagger_contract demoTagger.
Proof.
  intros ts. eexists; split; [reflexivity|].
  induction ts as [|t ts IH]; simpl; constructor; [by repeat split|exact IH].
Qed.

(** ** Properties of the pipeline *)

Section properties.
Variable NewIterTokenizer : Tokenizer.
Variable defaultModel : bool → option Model.
Variable segment : string → option (list Sentence).

(** When the requested stages all answer, [NewDocument] returns. *)
Lemma NewDocument_returns text calls st ss ts :
  stage_outputs defaultModel segment text
    (configure NewIterTokenizer text (map docOpt calls)) = Some (ss, ts) →
  ∃ doc st',
    NewDocument NewIterTokenizer defaultModel segment text (map docOpt calls) st
    = Some ((doc, None), st') ∧
    shown_sentences st' (Document.sentences doc) = Some ss ∧
    tokens_of st' (Document.tokens doc) = Some ts.
Proof.
  intros H.
  pose proof (NewDocument_run NewIterTokenizer defaultModel segment text calls st)
    as Hrun.
  simpl in Hrun. rewrite H in Hrun.
  destruct Hrun as (doc & st' & ? & _ & _ & ? & ? & _). by exists doc, st'.
Qed.

(** A document that [NewDocument] returned holds the outputs of the stages
    its options requested, all of which answered. *)
Lemma NewDocument_constructed text calls st0 doc err st :
  NewDocument NewIterTokenizer defaultModel segment text (map docOpt calls) st0
  = Some ((doc, err), st) →
  ∃ ss ts,
    stage_outputs defaultModel segment text
      (configure NewIterTokenizer text (map docOpt calls)) = Some (ss, ts) ∧
    shown_sentences st (Document.sentences doc) = Some ss ∧
    tokens_of st (Document.tokens doc) = Some ts.
Proof.
  intros H.
  pose proof (NewDocument_run NewIterTokenizer defaultModel segment text calls st0)
    as Hrun.
  simpl in Hrun.
  destruct (stage_outputs defaultModel segment text
              (configure NewIterTokenizer text (map docOpt calls)))
    as [[ss ts]|]; [|congruence].
  destruct Hrun as (doc' & st' & Hnew & _ & _ & ? & ? & _).
  rewrite Hnew in H. injection H as <- _ <-. by exists ss, ts.
Qed.

(** Whatever closures the options are, a run that returns has a nil error
    and the resolved model on the document. *)
Lemma NewDocument_returned text (opts : list DocOpt) st doc err st' :
  NewDocument NewIterTokenizer defaultModel segment text opts st
  = Some ((doc, err), st') →
  err = None ∧
  Document.Model doc
  = resolveModel defaultModel (configure NewIterTokenizer text opts).
Proof.
  unfold NewDocument, configure, resolveModel.
  destruct (applyOpts opts _ _) as [doc0 b]. cbn [fst snd].
  set (doc1 := match Document.Model doc0 with
               | Some _ => doc0
               | None => set_Model doc0 (defaultModel (DocOpts.Tag b))
               end).
  assert (Document.Model doc1 =
          match Document.Model doc0 with
          | None => defaultModel (DocOpts.Tag b)
          | Some m => Some m
          end) as <-.
  { subst doc1. by destruct (Document.Model doc0) eqn:E. }
  clearbody doc1. intros H.
  apply bind_inv in H as (d1 & st1 & H1 & H).
  apply bind_inv in H as (d2 & st2 & H2 & H).
  apply bind_inv in H as (d3 & st3 & H3 & H).
  injection H as <- <- <-. split; [done|].
  assert (Document.Model d1 = Document.Model doc1) as <-.
  { destruct (DocOpts.Segment b).
    - apply bind_inv in H1 as (s & ? & _ & H1). by injection H1 as <- _.
    - by injection H1 as <- _. }
  assert (Document.Model d2 = Document.Model d1) as <-.
  { destruct (DocOpts.Tokenizer b) as [tk|].
    - apply bind_inv in H2 as (? & ? & _ & H2).
      apply bind_inv in H2 as (? & ? & _ & H2).
      apply bind_inv in H2 as (? & ? & _ & H2). by injection H2 as <- _.
    - by injection H2 as <- _. }
  destruct (DocOpts.Tag b).
  - apply bind_inv in H3 as (? & ? & _ & H3).
    apply bind_inv in H3 as (? & ? & _ & H3). by injection H3 as <- _.
  - by injection H3 as <- _.
Qed.

(** C1: whenever the options leave the tokenizer unset and tagging enabled,
    [NewDocument] returns, with a nil error, a document whose [Tokens()] is
    empty: tagging does not turn tokenization back on.  The collaborators
    that run are taken at their contracts: the segmenter, if requested,
    answers, and the resolved model's tagger answers the empty sequence with
    the empty sequence. *)
Theorem tagging_never_forces_tokenization text calls st m :
  DocOpts.Tokenizer (configure NewIterTokenizer text (map docOpt calls)).2 = None →
  DocOpts.Tag (configure NewIterTokenizer text (map docOpt calls)).2 = true →
  (DocOpts.Segment (configure NewIterTokenizer text (map docOpt calls)).2 = true →
   is_Some (segment text)) →
  resolveModel defaultModel (configure NewIterTokenizer text (map docOpt calls))
  = Some m →
  tag (tagger m) [] = Some [] →
  ∃ doc st1 s st2,
    NewDocument NewIterTokenizer defaultModel segment text (map docOpt calls) st
    = Some ((doc, None), st1) ∧
    Tokens doc st1 = Some (s, st2) ∧
    shown_tokens st2 s = Some [].
Proof.
  intros HTok HTag HSeg HM Htag.
  assert (∃ ss, stage_outputs defaultModel segment text
                  (configure NewIterTokenizer text (map docOpt calls))
                = Some (ss, [])) as [ss Hout].
  { unfold stage_outputs. rewrite HTok, HTag, HM. simpl. rewrite Htag. simpl.
    destruct (DocOpts.Segment _); [|by eexists].
    destruct HSeg as [ss ->]; [done|]. by eexists. }
  destruct (NewDocument_returns text calls st ss [] Hout)
    as (doc & st1 & Hnew & _ & Htoks).
  destruct (Tokens_returns doc st1 [] Htoks) as (s & st2 & HT & Hs & _).
  by exists doc, st1, s, st2.
Qed.

(** C2: the last option about the tokenizer does not always win.  After
    [WithTokenization(false)], [WithTokenization(true)] leaves the tokenizer
    unset, where last-write-wins asks for the default tokenizer. *)
Theorem WithTokenization_true_does_not_enable text :
  DocOpts.Tokenizer
    (configure NewIterTokenizer text
       (map docOpt [CallWithTokenization false; CallWithTokenization true])).2
  = None ∧
  last_asked (asks_tokenizer NewIterTokenizer) (Some NewIterTokenizer)
    [CallWithTokenization false; CallWithTokenization true]
  = Some NewIterTokenizer.
Proof. split; reflexivity. Qed.

(** C3: on a configuration without a tokenizer, [WithTokenization(true)]
    changes nothing, where installing the default tokenizer sets it. *)
Theorem WithTokenization_true_is_not_install doc segmenting tagging :
  WithTokenization true doc (DocOpts.mk segmenting tagging None)
  = (doc, DocOpts.mk segmenting tagging None) ∧
  WithTokenization_spec NewIterTokenizer true doc (DocOpts.mk segmenting tagging None)
  = (doc, DocOpts.mk segmenting tagging (Some NewIterTokenizer)).
Proof. split; reflexivity. Qed.

(** C4: a stage the options ask for can be skipped without an error.
    After [WithTokenization(false)], [WithTokenization(true)] asks for the
    default tokenizer, yet [NewDocument] returns, with a nil error, a
    document whose [Tokens()] is empty: tokenization did not run. *)
Theorem requested_tokenization_is_skipped_silently text st m :
  is_Some (segment text) →
  defaultModel true = Some m →
  tag (tagger m) [] = Some [] →
  last_asked (asks_tokenizer NewIterTokenizer) (Some NewIterTokenizer)
    [CallWithTokenization false; CallWithTokenization true]
  = Some NewIterTokenizer ∧
  ∃ doc st1 s st2,
    NewDocument NewIterTokenizer defaultModel segment text
      (map docOpt [CallWithTokenization false; CallWithTokenization true]) st
    = Some ((doc, None), st1) ∧
    Tokens doc st1 = Some (s, st2) ∧
    shown_tokens st2 s = Some [].
Proof.
  intros [ss Hseg] HM Htag. split; [reflexivity|].
  assert (stage_outputs defaultModel segment text
            (configure NewIterTokenizer text
               (map docOpt [CallWithTokenization false; CallWithTokenization true]))
          = Some (ss, [])) as Hout.
  { unfold stage_outputs, resolveModel. simpl. rewrite Hseg, HM. simpl.
    rewrite Htag. reflexivity. }
  destruct (NewDocument_returns text
              [CallWithTokenization false; CallWithTokenization true] st ss [] Hout)
    as (doc & st1 & Hnew & _ & Hts).
  destruct (Tokens_returns doc st1 [] Hts) as (s & st2 & ? & ? & _).
  by exists doc, st1, s, st2.
Qed.

(** C5, as the code has it: [Sentences()] hands out the document's own
    slice.  On a constructed document it returns the internal header and
    leaves the store alone, and an in-range element write through what it
    returned shows in the next [Sentences()]. *)
Theorem Sentences_shares_storage text calls st0 doc err st :
  NewDocument NewIterTokenizer defaultModel segment text (map docOpt calls) st0
  = Some ((doc, err), st) →
  ∃ ss,
    Sentences doc st = Some (Document.sentences doc, st) ∧
    shown_sentences st (Document.sentences doc) = Some ss ∧
    ∀ i v, i < length ss →
      ∃ st',
        set_sentence (Document.sentences doc) i v st = Some (tt, st') ∧
        Sentences doc st' = Some (Document.sentences doc, st') ∧
        shown_sentences st' (Document.sentences doc) = Some (<[i := v]> ss).
Proof.
  intros H. apply NewDocument_constructed in H as (ss & ts & _ & Hss & _).
  exists ss. split; [done|]. split; [done|]. intros i v Hi.
  destruct (h_set_view (sentArrs st) (Document.sentences doc) i v ss Hss Hi)
    as (h' & Hset & Hview).
  eexists. unfold set_sentence. rewrite Hset. split; [reflexivity|].
  split; [reflexivity|]. exact Hview.
Qed.

(** C6: [Tokens()] hands out a copy of the document's tokens.  On a
    constructed document the tokens in the document's storage are those the
    stages produced; [Tokens()] returns a slice that shows exactly them, and
    whatever element writes and appends a caller makes through that slice,
    the document's storage still holds them and the next [Tokens()] shows
    them again. *)
Theorem Tokens_returns_a_copy text calls st0 doc err st :
  NewDocument NewIterTokenizer defaultModel segment text (map docOpt calls) st0
  = Some ((doc, err), st) →
  ∃ s st1 ss vs,
    stage_outputs defaultModel segment text
      (configure NewIterTokenizer text (map docOpt calls)) = Some (ss, vs) ∧
    tokens_of st (Document.tokens doc) = Some vs ∧
    Tokens doc st = Some (s, st1) ∧
    shown_tokens st1 s = Some vs ∧
    ∀ ws s' st2,
      write_tokens ws s st1 = Some (s', st2) →
      tokens_of st2 (Document.tokens doc) = Some vs ∧
      ∃ r st3, Tokens doc st2 = Some (r, st3) ∧ shown_tokens st3 r = Some vs.
Proof.
  intros H. apply NewDocument_constructed in H as (ss & ts & Hout & _ & Hts).
  destruct (Tokens_returns doc st ts Hts) as (s & st1 & HT & Hs & Hc & Hp & _).
  exists s, st1, ss, ts. split_and!; try done.
  intros ws s' st2 Hw. apply write_tokens_frame in Hw as (Hc2 & Hp2 & _).
  assert (tokens_of st2 (Document.tokens doc) = Some ts) as Hts2.
  { rewrite <- Hts. apply tokens_of_cells; congruence. }
  split; [exact Hts2|].
  destruct (Tokens_returns doc st2 ts Hts2) as (r & st3 & ? & ? & _).
  by exists r, st3.
Qed.

(** C7: the document [NewDocument] returns holds a model.  It is the model
    the options left installed, else the default model for the final tagging
    setting; with a default model that is never nil it is not nil.  For the
    constructors' options that is: the argument of the last [UsingModel]
    when it is not nil, else the default model for the argument of the last
    [WithTagging], for [true] when there is none. *)
Theorem NewDocument_model_resolved text (opts : list DocOpt) st doc err st' :
  (∀ tagging, is_Some (defaultModel tagging)) →
  NewDocument NewIterTokenizer defaultModel segment text opts st
  = Some ((doc, err), st') →
  is_Some (Document.Model doc) ∧
  Document.Model doc =
    match Document.Model (configure NewIterTokenizer text opts).1 with
    | Some m => Some m
    | None => defaultModel (DocOpts.Tag (configure NewIterTokenizer text opts).2)
    end ∧
  ∀ calls, opts = map docOpt calls →
    Document.Model doc =
      match last_asked asks_model None calls with
      | Some m => Some m
      | None => defaultModel (last_asked asks_tagging true calls)
      end.
Proof.
  intros Hdefault H. apply NewDocument_returned in H as (_ & HM).
  unfold resolveModel in HM. split_and!.
  - rewrite HM.
    destruct (Document.Model (configure NewIterTokenizer text opts).1) as [m|];
      [by exists m|apply Hdefault].
  - rewrite HM.
    by destruct (Document.Model (configure NewIterTokenizer text opts).1).
  - intros calls ->. rewrite HM. unfold configure.
    by rewrite applyOpts_model, applyOpts_tagging.
Qed.

(** C8: with a tokenizer in effect, tagging enabled and a tagger that meets
    its contract, [NewDocument] returns a document whose [Tokens()] shows
    the tokenizer's tokens, as many and in the same order, each with a
    tag. *)
Theorem tagging_keeps_count_and_order text calls st tk m toks :
  DocOpts.Tokenizer (configure NewIterTokenizer text (map docOpt calls)).2 = Some tk →
  DocOpts.Tag (configure NewIterTokenizer text (map docOpt calls)).2 = true →
  Tokenize tk text = Some toks →
  (DocOpts.Segment (configure NewIterTokenizer text (map docOpt calls)).2 = true →
   is_Some (segment text)) →
  resolveModel defaultModel (configure NewIterTokenizer text (map docOpt calls))
  = Some m →
  tagger_contract (tagger m) →
  ∃ doc st1 s st2 vs,
    NewDocument NewIterTokenizer defaultModel segment text (map docOpt calls) st
    = Some ((doc, None), st1) ∧
    Tokens doc st1 = Some (s, st2) ∧
    shown_tokens st2 s = Some vs ∧
    length vs = length toks ∧
    Forall2 tagged_as toks vs ∧
    Forall (λ t, hasTag t = true) vs.
Proof.
  intros HTok HTag Htoks HSeg HM Hcontract.
  destruct (Hcontract toks) as (vs & Htag & Hvs).
  assert (∃ ss, stage_outputs defaultModel segment text
                  (configure NewIterTokenizer text (map docOpt calls))
                = Some (ss, vs)) as [ss Hout].
  { unfold stage_outputs. rewrite HTok, HTag, HM, Htoks. simpl. rewrite Htag. simpl.
    destruct (DocOpts.Segment _); [|by eexists].
    destruct HSeg as [ss ->]; [done|]. by eexists. }
  destruct (NewDocument_returns text calls st ss vs Hout)
    as (doc & st1 & Hnew & _ & Hts).
  destruct (Tokens_returns doc st1 vs Hts) as (s & st2 & HT & Hs & _).
  exists doc, st1, s, st2, vs. split_and!; try done.
  - symmetry. by eapply Forall2_length.
  - clear -Hvs. induction Hvs as [|a b ? ? Hab]; constructor; [apply Hab|done].
Qed.

(** C9: the empty text is not an error.  With no options, a segmenter and a
    default tokenizer that answer the empty text with no sentence and no
    token, and a default tagger that answers the empty sequence with the
    empty sequence, [NewDocument] returns, with a nil error, a document whose
    [Sentences()] and [Tokens()] are both empty. *)
Theorem empty_text_is_not_an_error st m :
  segment EmptyString = Some [] →
  Tokenize NewIterTokenizer EmptyString = Some [] →
  defaultModel true = Some m →
  tag (tagger m) [] = Some [] →
  ∃ doc st1,
    NewDocument NewIterTokenizer defaultModel segment EmptyString [] st
    = Some ((doc, None), st1) ∧
    (∃ s, Sentences doc st1 = Some (s, st1) ∧ shown_sentences st1 s = Some []) ∧
    (∃ s st2, Tokens doc st1 = Some (s, st2) ∧ shown_tokens st2 s = Some []).
Proof.
  intros Hseg Htok HM Htag.
  assert (stage_outputs defaultModel segment EmptyString
            (configure NewIterTokenizer EmptyString (map docOpt []))
          = Some ([], [])) as Hout.
  { unfold stage_outputs, resolveModel. simpl.
    rewrite Hseg, Htok, HM. simpl. rewrite Htag. reflexivity. }
  destruct (NewDocument_returns EmptyString [] st [] [] Hout)
    as (doc & st1 & Hnew & Hss & Hts).
  exists doc, st1. split; [exact Hnew|]. split.
  - by exists (Document.sentences doc).
  - destruct (Tokens_returns doc st1 [] Hts) as (s & st2 & ? & ? & _).
    by exists s, st2.
Qed.

(** C10: the error [NewDocument] returns is nil, whatever the text and
    whatever closures the options are; and it does return whenever its
    options come from the constructors and every requested stage answers. *)
Theorem NewDocument_error_is_nil text (opts : list DocOpt) st :
  (∀ doc err st',
     NewDocument NewIterTokenizer defaultModel segment text opts st
     = Some ((doc, err), st') → err = None) ∧
  (∀ calls,
     opts = map docOpt calls →
     is_Some (stage_outputs defaultModel segment text
                (configure NewIterTokenizer text opts)) →
     ∃ doc st',
       NewDocument NewIterTokenizer defaultModel segment text opts st
       = Some ((doc, None), st')).
Proof.
  split.
  - intros doc err st' H. by apply NewDocument_returned in H as (? & _).
  - intros calls -> [[ss ts] Hout].
    destruct (NewDocument_returns text calls st ss ts Hout) as (doc & st' & ? & _).
    by exists doc, st'.
Qed.
End properties.

(** ** The pipeline at concrete inputs *)

Lemma tagging_never_forces_tokenization_witness :
  ∃ doc st1 s st2,
    NewDocument demoTokenizer demoDefaultModel demoSegment "text"
      (map docOpt [CallUsingTokenizer None; CallWithTagging true]) emptyStore
    = Some ((doc, None), st1) ∧
    Tokens doc st1 = Some (s, st2) ∧
    shown_tokens st2 s = Some [].
Proof.
  apply (tagging_never_forces_tokenization demoTokenizer demoDefaultModel
           demoSegment "text" [CallUsingTokenizer None; CallWithTagging true]
           emptyStore demoModel).
  - reflexivity.
  - reflexivity.
  - intros _. eexists. reflexivity.
  - reflexivity.
  - reflexivity.
Defined.

Lemma tagging_keeps_count_and_order_witness :
  ∃ doc st1 s st2 vs,
    NewDocument demoTokenizer demoDefaultModel demoSegment "Run!"
      (map docOpt [CallWithSegmentation false]) emptyStore
    = Some ((doc, None), st1) ∧
    Tokens doc st1 = Some (s, st2) ∧
    shown_tokens st2 s = Some vs ∧
    length vs = length [tok "Run" 0 3; tok "!" 3 4] ∧
    Forall2 tagged_as [tok "Run" 0 3; tok "!" 3 4] vs ∧
    Forall (λ t, hasTag t = true) vs.
Proof.
  apply (tagging_keeps_count_and_order demoTokenizer demoDefaultModel demoSegment
           "Run!" [CallWithSegmentation false] emptyStore demoTokenizer demoModel).
  - reflexivity.
  - reflexivity.
  - reflexivity.
  - simpl. discriminate.
  - reflexivity.
  - exact demoTagger_contract.
Defined.

(** A tokenizer that panics makes [NewDocument] panic; no error value comes
    back, nil or not. *)
Lemma NewDocument_panic_is_not_an_error :
  Tokenize brokenTokenizer "text" = None ∧
  demoNew "text" [UsingTokenizer (Some brokenTokenizer)] emptyStore = None ∧
  (∀ doc msg st',
     demoNew "text" [UsingTokenizer (Some brokenTokenizer)] emptyStore
     ≠ Some ((doc, Some msg), st')).
Proof. split; [reflexivity|]. split; [reflexivity|]. intros doc msg st'. discriminate. Qed.

(** C5: a caller that overwrites the first element of what [Sentences()]
    returned finds its own value in the next [Sentences()]. *)
Lemma Sentences_is_not_a_copy :
  fst <$> sentences_probe emptyStore
  = Some ([mkSentence 0 4], [mkSentence 7 9]).
Proof. vm_compute. reflexivity. Qed.

Lemma Sentences_shares_storage_witness :
  ∃ doc err st,
    demoNew "Run!" (map docOpt []) emptyStore = Some ((doc, err), st) ∧
    ∃ ss,
      Sentences doc st = Some (Document.sentences doc, st) ∧
      shown_sentences st (Document.sentences doc) = Some ss ∧
      ∀ i v, i < length ss →
        ∃ st',
          set_sentence (Document.sentences doc) i v st = Some (tt, st') ∧
          Sentences doc st' = Some (Document.sentences doc, st') ∧
          shown_sentences st' (Document.sentences doc) = Some (<[i := v]> ss).
Proof.
  destruct (demoNew "Run!" (map docOpt []) emptyStore) as [[[doc err] st]|] eqn:E;
    [|vm_compute in E; discriminate].
  exists doc, err, st. split; [reflexivity|].
  exact (Sentences_shares_storage demoTokenizer demoDefaultModel demoSegment
           "Run!" [] emptyStore doc err st E).
Defined.

Lemma Tokens_returns_a_copy_witness :
  ∃ doc err st,
    demoNew "Run!" (map docOpt []) emptyStore = Some ((doc, err), st) ∧
    ∃ s st1 ss vs,
      stage_outputs demoDefaultModel demoSegment "Run!"
        (configure demoTokenizer "Run!" (map docOpt [])) = Some (ss, vs) ∧
      tokens_of st (Document.tokens doc) = Some vs ∧
      Tokens doc st = Some (s, st1) ∧
      shown_tokens st1 s = Some vs ∧
      ∀ ws s' st2,
        write_tokens ws s st1 = Some (s', st2) →
        tokens_of st2 (Document.tokens doc) = Some vs ∧
        ∃ r st3, Tokens doc st2 = Some (r, st3) ∧ shown_tokens st3 r = Some vs.
Proof.
  destruct (demoNew "Run!" (map docOpt []) emptyStore) as [[[doc err] st]|] eqn:E;
    [|vm_compute in E; discriminate].
  exists doc, err, st. split; [reflexivity|].
  exact (Tokens_returns_a_copy demoTokenizer demoDefaultModel demoSegment
           "Run!" [] emptyStore doc err st E).
Defined.

(** The probe of [Tokens()]: the overwritten element does not show. *)
Lemma Tokens_probe_unchanged :
  fst <$> tokens_probe emptyStore
  = Some ([mkToken "Run" 0 3 "NN"; mkToken "!" 3 4 "NN"],
          [mkToken "Run" 0 3 "NN"; mkToken "!" 3 4 "NN"]).
Proof. vm_compute. reflexivity. Qed.

Lemma NewDocument_model_resolved_witness :
  (∃ doc err st,
     NewDocument demoTokenizer switchingDefaultModel demoSegment "text"
       (map docOpt [CallUsingModel (Some plainModel); CallWithTagging true])
       emptyStore
     = Some ((doc, err), st) ∧
     Document.Model doc = Some plainModel) ∧
  (∃ doc err st,
     NewDocument demoTokenizer switchingDefaultModel demoSegment "text"
       (map docOpt [CallUsingModel (Some demoModel); CallUsingModel None;
                    CallWithTagging false])
       emptyStore
     = Some ((doc, err), st) ∧
     Document.Model doc = switchingDefaultModel false).
Proof.
  split.
  - destruct (NewDocument demoTokenizer switchingDefaultModel demoSegment "text"
                (map docOpt [CallUsingModel (Some plainModel); CallWithTagging true])
                emptyStore) as [[[doc err] st]|] eqn:E;
      [|vm_compute in E; discriminate].
    exists doc, err, st. split; [reflexivity|].
    destruct (NewDocument_model_resolved demoTokenizer switchingDefaultModel
                demoSegment "text"
                (map docOpt [CallUsingModel (Some plainModel); CallWithTagging true])
                emptyStore doc err st) as (_ & _ & H).
    + intros tagging. eexists. reflexivity.
    + exact E.
    + exact (H [CallUsingModel (Some plainModel); CallWithTagging true] eq_refl).
  - destruct (NewDocument demoTokenizer switchingDefaultModel demoSegment "text"
                (map docOpt [CallUsingModel (Some demoModel); CallUsingModel None;
                             CallWithTagging false])
                emptyStore) as [[[doc err] st]|] eqn:E;
      [|vm_compute in E; discriminate].
    exists doc, err, st. split; [reflexivity|].
    destruct (NewDocument_model_resolved demoTokenizer switchingDefaultModel
                demoSegment "text"
                (map docOpt [CallUsingModel (Some demoModel); CallUsingModel None;
                             CallWithTagging false])
                emptyStore doc err st) as (_ & _ & H).
    + intros tagging. eexists. reflexivity.
    + exact E.
    + exact (H [CallUsingModel (Some demoModel); CallUsingModel None;
                CallWithTagging false] eq_refl).
Defined.

Lemma empty_text_is_not_an_error_witness :
  ∃ doc st1,
    NewDocument demoTokenizer demoDefaultModel demoSegment EmptyString []
      emptyStore
    = Some ((doc, None), st1) ∧
    (∃ s, Sentences doc st1 = Some (s, st1) ∧ shown_sentences st1 s = Some []) ∧
    (∃ s st2, Tokens doc st1 = Some (s, st2) ∧ shown_tokens st2 s = Some []).
Proof.
  apply (empty_text_is_not_an_error demoTokenizer demoDefaultModel demoSegment
           emptyStore demoModel); reflexivity.
Defined.

Lemma requested_tokenization_is_skipped_silently_witness :
  Tokenize demoTokenizer "Run!" = Some [tok "Run" 0 3; tok "!" 3 4] ∧
  last_asked (asks_tokenizer demoTokenizer) (Some demoTokenizer)
    [CallWithTokenization false; CallWithTokenization true]
  = Some demoTokenizer ∧
  ∃ doc st1 s st2,
    NewDocument demoTokenizer demoDefaultModel demoSegment "Run!"
      (map docOpt [CallWithTokenization false; CallWithTokenization true])
      emptyStore
    = Some ((doc, None), st1) ∧
    Tokens doc st1 = Some (s, st2) ∧
    shown_tokens st2 s = Some [].
Proof.
  split; [reflexivity|].
  apply (requested_tokenization_is_skipped_silently demoTokenizer
           demoDefaultModel demoSegment "Run!" emptyStore demoModel).
  - eexists. reflexivity.
  - reflexivity.
  - reflexivity.
Defined.

(** ** The configuration in closed form *)

Lemma applyOpts_tokenizer_writes calls : ∀ doc base,
  DocOpts.Tokenizer (applyOpts (map docOpt calls) doc base).2
  = last_asked writes_tokenizer (DocOpts.Tokenizer base) calls.
Proof.
  unfold applyOpts, last_asked.
  induction calls as [|c calls IH]; intros doc base; [done|]. simpl.
  destruct (docOpt c doc base) as [doc1 base1] eqn:Hc. rewrite IH. f_equal.
  destruct c as [?|[]|?|?|?]; simpl in *; by injection Hc as <- <-.
Qed.

(** Each field after the loop is the last value written to it. *)
Lemma applyOpts_closed_form calls doc base :
  applyOpts (map docOpt calls) doc base
  = (Document.mk (last_asked asks_model (Document.Model doc) calls)
       (Document.Text doc) (Document.sentences doc) (Document.tokens doc),
     DocOpts.mk (last_asked asks_segmentation (DocOpts.Segment base) calls)
       (last_asked asks_tagging (DocOpts.Tag base) calls)
       (last_asked writes_tokenizer (DocOpts.Tokenizer base) calls)).
Proof.
  pose proof (applyOpts_calls calls doc base) as (HT & HS & HK).
  pose proof (applyOpts_model calls doc base) as HM.
  pose proof (applyOpts_tagging calls doc base) as Htag.
  pose proof (applyOpts_segmentation calls doc base) as Hseg.
  pose proof (applyOpts_tokenizer_writes calls doc base) as Htok.
  destruct (applyOpts (map docOpt calls) doc base) as [[] []].
  simpl in *. congruence.
Qed.

(** The last value written does not depend on the options that write
    nothing. *)
Lemma last_asked_filter {V} (asks : OptCall → option V) (P : OptCall → Prop)
    `{!∀ c, Decision (P c)} calls :
  (∀ c, ¬ P c → asks c = None) →
  ∀ default, last_asked asks default (filter P calls) = last_asked asks default calls.
Proof.
  intros Hskip. unfold last_asked.
  induction calls as [|c calls IH]; intros default; [done|].
  rewrite filter_cons. destruct (decide (P c)) as [HP|HP]; simpl.
  - apply IH.
  - rewrite (Hskip c HP). apply IH.
Qed.

(** With segmentation left disabled, a document that is returned has the
    nil slice for its sentences. *)
Lemma segmentation_off_nil_slice
    dflt defaultModel segment text calls st doc err st' :
  DocOpts.Segment (configure dflt text (map docOpt calls)).2 = false →
  NewDocument dflt defaultModel segment text (map docOpt calls) st
  = Some ((doc, err), st') →
  Sentences doc st' = Some (nil_slice, st') ∧
  shown_sentences st' nil_slice = Some [].
Proof.
  intros Hseg H. split; [|reflexivity].
  destruct (configure_calls dflt text calls) as (_ & HS & _).
  unfold NewDocument in H. unfold configure in Hseg, HS.
  destruct (applyOpts (map docOpt calls) _ _) as [doc0 b]. simpl in Hseg, HS.
  rewrite Hseg in H.
  set (doc1 := match Document.Model doc0 with
               | Some _ => doc0
               | None => set_Model doc0 (defaultModel (DocOpts.Tag b))
               end) in H.
  assert (Document.sentences doc1 = nil_slice) as HS1.
  { subst doc1. by destruct (Document.Model doc0). }
  clearbody doc1.
  apply bind_inv in H as (d1 & st1 & H1 & H). injection H1 as <- <-.
  apply bind_inv in H as (d2 & st2 & H2 & H).
  apply bind_inv in H as (d3 & st3 & H3 & H).
  injection H as <- _ <-.
  assert (Document.sentences d2 = nil_slice) as HS2.
  { rewrite <- HS1. destruct (DocOpts.Tokenizer b) as [tk|].
    - apply bind_inv in H2 as (? & ? & _ & H2).
      apply bind_inv in H2 as (? & ? & _ & H2).
      apply bind_inv in H2 as (? & ? & _ & H2). by injection H2 as <- _.
    - by injection H2 as <- _. }
  unfold Sentences, ret. do 2 f_equal. rewrite <- HS2.
  destruct (DocOpts.Tag b).
  - apply bind_inv in H3 as (? & ? & _ & H3).
    apply bind_inv in H3 as (? & ? & _ & H3). by injection H3 as <- _.
  - by injection H3 as <- _.
Qed.

(** X1: with segmentation left disabled the document has no sentences,
    whatever the segmenter is and whatever the tagging and tokenization
    settings: provided the tokenizer in effect answers and, under tagging,
    the resolved model's tagger answers, [NewDocument] returns and
    [Sentences()] returns the nil slice.  Nothing is asked of the segmenter:
    it is not consulted. *)
Theorem segmentation_off_means_no_sentences
    dflt defaultModel segment text calls st :
  DocOpts.Segment (configure dflt text (map docOpt calls)).2 = false →
  (∀ tk, DocOpts.Tokenizer (configure dflt text (map docOpt calls)).2 = Some tk →
         is_Some (Tokenize tk text)) →
  (DocOpts.Tag (configure dflt text (map docOpt calls)).2 = true →
   ∃ m, resolveModel defaultModel (configure dflt text (map docOpt calls)) = Some m ∧
        ∀ ts, is_Some (tag (tagger m) ts)) →
  ∃ doc st',
    NewDocument dflt defaultModel segment text (map docOpt calls) st
    = Some ((doc, None), st') ∧
    Sentences doc st' = Some (nil_slice, st') ∧
    shown_sentences st' nil_slice = Some [].
Proof.
  intros Hseg Htok Htag.
  assert (∃ ts, stage_outputs defaultModel segment text
                  (configure dflt text (map docOpt calls))
                = Some ([], ts)) as [ts Hout].
  { unfold stage_outputs. rewrite Hseg. simpl.
    assert (∃ ts0, match DocOpts.Tokenizer (configure dflt text (map docOpt calls)).2
                   with Some tk => Tokenize tk text | None => Some [] end
                   = Some ts0) as [ts0 ->].
    { destruct (DocOpts.Tokenizer _) as [tk|]; [|by eexists].
      destruct (Htok tk eq_refl) as [ts0 ->]. by eexists. }
    simpl. destruct (DocOpts.Tag _); [|by eexists].
    destruct Htag as (m & -> & Hm); [done|]. simpl.
    destruct (Hm ts0) as [ts' ->]. by eexists. }
  destruct (NewDocument_returns dflt defaultModel segment text calls st [] ts Hout)
    as (doc & st' & Hnew & _).
  exists doc, st'. split; [exact Hnew|].
  exact (segmentation_off_nil_slice dflt defaultModel segment text calls st
           doc None st' Hseg Hnew).
Qed.

(** X2: with tagging left disabled, [Tokens()] shows the tokenizer's tokens
    as the tokenizer produced them; neither the model nor its tagger is
    consulted, so nothing is asked of them. *)
Theorem tagging_off_leaves_tokens_as_tokenized
    dflt defaultModel segment text calls st tk toks :
  DocOpts.Tag (configure dflt text (map docOpt calls)).2 = false →
  DocOpts.Tokenizer (configure dflt text (map docOpt calls)).2 = Some tk →
  Tokenize tk text = Some toks →
  (DocOpts.Segment (configure dflt text (map docOpt calls)).2 = true →
   is_Some (segment text)) →
  ∃ doc st1 s st2,
    NewDocument dflt defaultModel segment text (map docOpt calls) st
    = Some ((doc, None), st1) ∧
    Tokens doc st1 = Some (s, st2) ∧
    shown_tokens st2 s = Some toks.
Proof.
  intros HTag HTok Htoks HSeg.
  assert (∃ ss, stage_outputs defaultModel segment text
                  (configure dflt text (map docOpt calls))
                = Some (ss, toks)) as [ss Hout].
  { unfold stage_outputs. rewrite HTok, HTag, Htoks. simpl.
    destruct (DocOpts.Segment _); [|by eexists].
    destruct HSeg as [ss ->]; [done|]. by eexists. }
  destruct (NewDocument_returns dflt defaultModel segment text calls st ss toks Hout)
    as (doc & st1 & Hnew & _ & Hts).
  destruct (Tokens_returns doc st1 toks Hts) as (s & st2 & HT & Hs & _).
  by exists doc, st1, s, st2.
Qed.

(** X3: the configuration depends on the option list only through, for each
    setting, the options about that setting in their order: two lists that
    agree on these four sub-lists configure alike.  Options about different
    settings commute. *)
Theorem configuration_is_per_setting dflt text calls calls' :
  (∀ s, filter (λ c, setting_of c = s) calls
        = filter (λ c, setting_of c = s) calls') →
  configure dflt text (map docOpt calls) = configure dflt text (map docOpt calls').
Proof.
  intros Hsame. unfold configure. rewrite !applyOpts_closed_form. simpl.
  assert (∀ V (asks : OptCall → option V) s default,
            (∀ c, ¬ setting_of c = s → asks c = None) →
            last_asked asks default calls = last_asked asks default calls') as Hlast.
  { intros V asks s default Hskip.
    rewrite <- (last_asked_filter asks (λ c, setting_of c = s) calls Hskip).
    rewrite <- (last_asked_filter asks (λ c, setting_of c = s) calls' Hskip).
    by rewrite Hsame. }
  f_equal; [f_equal|f_equal].
  - apply (Hlast _ _ TheModel). by intros [].
  - apply (Hlast _ _ TheSegmentation). by intros [].
  - apply (Hlast _ _ TheTagging). by intros [].
  - apply (Hlast _ _ TheTokenizer). by intros [?|[]|?|?|?].
Qed.

(** X5: calls of [WithTokenization(true)] can be struck from an option list,
    wherever they stand, without changing the configuration. *)
Theorem WithTokenization_true_can_be_dropped dflt text calls :
  configure dflt text (map docOpt (filter (λ c, enables c = false) calls))
  = configure dflt text (map docOpt calls).
Proof.
  unfold configure. rewrite !applyOpts_closed_form. simpl.
  f_equal; [f_equal|f_equal].
  - apply last_asked_filter. by intros [?|[]|?|?|?].
  - apply last_asked_filter. by intros [?|[]|?|?|?].
  - apply last_asked_filter. by intros [?|[]|?|?|?].
  - apply last_asked_filter. by intros [?|[]|?|?|?].
Qed.

(** X6: the returned document keeps the input text verbatim. *)
Theorem NewDocument_keeps_text
    dflt defaultModel segment text calls st doc err st' :
  NewDocument dflt defaultModel segment text (map docOpt calls) st
  = Some ((doc, err), st') →
  Document.Text doc = text.
Proof.
  intros H.
  pose proof (NewDocument_run dflt defaultModel segment text calls st) as Hrun.
  simpl in Hrun.
  destruct (stage_outputs defaultModel segment text
              (configure dflt text (map docOpt calls)))
    as [[ss ts]|]; [|congruence].
  destruct Hrun as (doc' & st1 & Hnew & _ & HT & _).
  rewrite Hnew in H. by injection H as <- _ _.
Qed.

(** X7: the model on the returned document is the argument of the last
    [UsingModel] when that is not nil, and otherwise the default model for
    the argument of the last [WithTagging] (for [true] when there is none),
    wherever in the list the two stand. *)
Theorem model_is_last_installed_or_default
    dflt defaultModel segment text calls st doc err st' :
  NewDocument dflt defaultModel segment text (map docOpt calls) st
  = Some ((doc, err), st') →
  Document.Model doc =
    match last_asked asks_model None calls with
    | Some m => Some m
    | None => defaultModel (last_asked asks_tagging true calls)
    end.
Proof.
  intros H. apply NewDocument_returned in H as (_ & HM).
  rewrite HM. unfold resolveModel, configure.
  by rewrite applyOpts_model, applyOpts_tagging.
Qed.

(** The array behind what [Tokens()] returns was not in use before the
    call. *)
Lemma Tokens_fresh doc st s st' :
  Tokens doc st = Some (s, st') →
  ∃ l, arr s = Some l ∧ tokArrs st !! l = None ∧ is_Some (tokArrs st' !! l).
Proof.
  intros H. unfold Tokens in H.
  set (n := len (Document.tokens doc)) in H.
  set (l := fresh (dom (tokArrs st))) in *.
  set (st1 := mkStore (cells st) (ptrArrs st)
                (<[l := replicate n zeroToken]> (tokArrs st)) (sentArrs st)).
  assert (make_tokens n st = Some (Slice (Some l) 0 n, st1)) as Hmake by done.
  rewrite (bind_ret _ _ _ _ _ Hmake) in H.
  apply bind_inv in H as (ps & st2 & Hview & H).
  unfold view_ptrs, lift in Hview.
  destruct (h_view (ptrArrs st1) (Document.tokens doc)) as [ps'|] eqn:Hps;
    [|discriminate].
  injection Hview as <- <-.
  pose proof (Tokens_loop l n ps' [] st1) as Hloop. simpl in Hloop.
  destruct (pointees st1 ps') as [vs|].
  - destruct Hloop as (st3 & Hrun & Ht & _).
    { rewrite lookup_insert_eq. f_equal. f_equal. lia. }
    { apply h_view_length in Hps. subst n. lia. }
    rewrite Hrun in H. injection H as <- <-.
    exists l. split; [done|]. split; [apply fresh_unused|].
    rewrite Ht, lookup_insert_eq. by eexists.
  - rewrite Hloop in H; [discriminate| |].
    + rewrite lookup_insert_eq. f_equal. f_equal. lia.
    + apply h_view_length in Hps. subst n. lia.
Qed.

(** X8: [Tokens()] only reads the document.  A call that returns leaves the
    token cells, the pointer arrays and the sentence arrays as they were and
    keeps every [[]Token] array there was; a second call returns the same
    tokens over another array, and what the first call returned still shows
    them. *)
Theorem Tokens_copies_are_independent doc st s st1 :
  Tokens doc st = Some (s, st1) →
  cells st1 = cells st ∧ ptrArrs st1 = ptrArrs st ∧ sentArrs st1 = sentArrs st ∧
  tokArrs st ⊆ tokArrs st1 ∧
  ∃ r st2 vs,
    Tokens doc st1 = Some (r, st2) ∧
    arr r ≠ arr s ∧
    shown_tokens st2 r = Some vs ∧
    shown_tokens st2 s = Some vs.
Proof.
  intros H.
  destruct (Tokens_fresh doc st s st1 H) as (l & Hl & _ & Hused).
  pose proof (Tokens_run doc st) as Hrun.
  destruct (tokens_of st (Document.tokens doc)) as [vs|] eqn:Hvs;
    [|congruence].
  destruct Hrun as (s0 & st0 & Hrun & Hs & Hc & Hp & Hse & (_ & _ & Ht & _)).
  rewrite Hrun in H. injection H as -> ->.
  split_and!; try done.
  assert (tokens_of st1 (Document.tokens doc) = Some vs) as Hvs1.
  { rewrite <- Hvs. by apply tokens_of_cells. }
  pose proof (Tokens_run doc st1) as Hrun1. rewrite Hvs1 in Hrun1.
  destruct Hrun1 as (r & st2 & Hrun1 & Hr & _ & _ & _ & (_ & _ & Ht1 & _)).
  destruct (Tokens_fresh doc st1 r st2 Hrun1) as (l' & Hl' & Hfree & _).
  exists r, st2, vs. split_and!; try done.
  - rewrite Hl, Hl'. intros [= ->]. rewrite Hfree in Hused.
    by destruct Hused.
  - by apply (h_view_mono (tokArrs st1)).
Qed.

(** X10: without options every stage runs: the document holds the default
    model for tagging, [Sentences()] shows what the segmenter made of the
    text and [Tokens()] what the default model's tagger made of the default
    tokenizer's tokens. *)
Theorem defaults_run_every_stage
    dflt defaultModel segment text st ss toks m tagged :
  segment text = Some ss →
  Tokenize dflt text = Some toks →
  defaultModel true = Some m →
  tag (tagger m) toks = Some tagged →
  ∃ doc st1,
    NewDocument dflt defaultModel segment text [] st = Some ((doc, None), st1) ∧
    Document.Model doc = Some m ∧
    (∃ s, Sentences doc st1 = Some (s, st1) ∧ shown_sentences st1 s = Some ss) ∧
    (∃ s st2, Tokens doc st1 = Some (s, st2) ∧ shown_tokens st2 s = Some tagged).
Proof.
  intros Hseg Htok HM Htag.
  pose proof (NewDocument_run dflt defaultModel segment text [] st) as Hrun.
  unfold stage_outputs, resolveModel in Hrun. simpl in Hrun.
  rewrite Hseg, Htok, HM in Hrun. simpl in Hrun. rewrite Htag in Hrun.
  simpl in Hrun.
  destruct Hrun as (doc & st1 & Hnew & Hmodel & _ & Hss & Hts & _).
  exists doc, st1. split_and!; try done.
  - by exists (Document.sentences doc).
  - destruct (Tokens_returns doc st1 tagged Hts) as (s & st2 & ? & ? & _).
    by exists s, st2.
Qed.

(** X11: on an option list without [WithTokenization(true)] the pipeline
    runs exactly the stages the list asks for, all or nothing: when one of
    them panics [NewDocument] panics, and otherwise it returns, with a nil
    error, a document whose [Sentences()] and [Tokens()] show their complete
    outputs. *)
Theorem requested_stages_all_or_nothing
    dflt defaultModel segment text calls st :
  CallWithTokenization true ∉ calls →
  match requested_outputs dflt defaultModel segment text calls with
  | None =>
      NewDocument dflt defaultModel segment text (map docOpt calls) st = None
  | Some (ss, ts) =>
      ∃ doc st1,
        NewDocument dflt defaultModel segment text (map docOpt calls) st
        = Some ((doc, None), st1) ∧
        (∃ s, Sentences doc st1 = Some (s, st1) ∧
              shown_sentences st1 s = Some ss) ∧
        (∃ s st2, Tokens doc st1 = Some (s, st2) ∧
                  shown_tokens st2 s = Some ts)
  end.
Proof.
  intros Hno.
  assert (requested_outputs dflt defaultModel segment text calls
          = stage_outputs defaultModel segment text
              (configure dflt text (map docOpt calls))) as ->.
  { unfold requested_outputs, stage_outputs, resolveModel, configure.
    rewrite (applyOpts_tokenizer dflt) by done.
    rewrite applyOpts_tagging, applyOpts_segmentation, applyOpts_model. simpl.
    by destruct (last_asked asks_tagging true calls). }
  pose proof (NewDocument_run dflt defaultModel segment text calls st) as Hrun.
  simpl in Hrun.
  destruct (stage_outputs defaultModel segment text
              (configure dflt text (map docOpt calls)))
    as [[ss ts]|]; [|exact Hrun].
  destruct Hrun as (doc & st1 & Hnew & _ & _ & Hss & Hts & _).
  exists doc, st1. split; [exact Hnew|]. split.
  - by exists (Document.sentences doc).
  - destruct (Tokens_returns doc st1 ts Hts) as (s & st2 & ? & ? & _).
    by exists s, st2.
Qed.

(** ** The properties above at concrete inputs *)

Lemma segmentation_off_means_no_sentences_witness :
  ∃ doc st',
    NewDocument demoTokenizer demoDefaultModel brokenSegment "Run!"
      (map docOpt [CallWithSegmentation false]) emptyStore
    = Some ((doc, None), st') ∧
    Sentences doc st' = Some (nil_slice, st') ∧
    shown_sentences st' nil_slice = Some [].
Proof.
  apply (segmentation_off_means_no_sentences demoTokenizer demoDefaultModel
           brokenSegment "Run!" [CallWithSegmentation false] emptyStore).
  - reflexivity.
  - intros tk [= <-]. eexists. reflexivity.
  - intros _. exists demoModel. split; [reflexivity|].
    intros ts. eexists. reflexivity.
Defined.

Lemma tagging_off_leaves_tokens_as_tokenized_witness :
  ∃ doc st1 s st2,
    NewDocument demoTokenizer noDefaultModel demoSegment "Run!"
      (map docOpt [CallWithTagging false]) emptyStore
    = Some ((doc, None), st1) ∧
    Tokens doc st1 = Some (s, st2) ∧
    shown_tokens st2 s = Some [tok "Run" 0 3; tok "!" 3 4].
Proof.
  apply (tagging_off_leaves_tokens_as_tokenized demoTokenizer noDefaultModel
           demoSegment "Run!" [CallWithTagging false] emptyStore demoTokenizer).
  - reflexivity.
  - reflexivity.
  - reflexivity.
  - intros _. eexists. reflexivity.
Defined.

Lemma configuration_is_per_setting_witness :
  configure demoTokenizer "text"
    (map docOpt [CallWithTagging false; CallUsingTokenizer None; CallWithTagging true])
  = configure demoTokenizer "text"
      (map docOpt [CallUsingTokenizer None; CallWithTagging false; CallWithTagging true]).
Proof.
  apply (configuration_is_per_setting demoTokenizer "text"
           [CallWithTagging false; CallUsingTokenizer None; CallWithTagging true]
           [CallUsingTokenizer None; CallWithTagging false; CallWithTagging true]).
  intros []; reflexivity.
Defined.

Lemma configure_last_write_wins_witness :
  DocOpts.Tokenizer
    (configure demoTokenizer "text"
       (map docOpt [CallWithTokenization false; CallUsingTokenizer (Some brokenTokenizer);
                    CallWithTagging false; CallUsingModel (Some demoModel)])).2
  = last_asked (asks_tokenizer demoTokenizer) (Some demoTokenizer)
      [CallWithTokenization false; CallUsingTokenizer (Some brokenTokenizer);
       CallWithTagging false; CallUsingModel (Some demoModel)] ∧
  DocOpts.Tag
    (configure demoTokenizer "text"
       (map docOpt [CallWithTokenization false; CallUsingTokenizer (Some brokenTokenizer);
                    CallWithTagging false; CallUsingModel (Some demoModel)])).2
  = last_asked asks_tagging true
      [CallWithTokenization false; CallUsingTokenizer (Some brokenTokenizer);
       CallWithTagging false; CallUsingModel (Some demoModel)] ∧
  DocOpts.Segment
    (configure demoTokenizer "text"
       (map docOpt [CallWithTokenization false; CallUsingTokenizer (Some brokenTokenizer);
                    CallWithTagging false; CallUsingModel (Some demoModel)])).2
  = last_asked asks_segmentation true
      [CallWithTokenization false; CallUsingTokenizer (Some brokenTokenizer);
       CallWithTagging false; CallUsingModel (Some demoModel)] ∧
  Document.Model
    (configure demoTokenizer "text"
       (map docOpt [CallWithTokenization false; CallUsingTokenizer (Some brokenTokenizer);
                    CallWithTagging false; CallUsingModel (Some demoModel)])).1
  = last_asked asks_model None
      [CallWithTokenization false; CallUsingTokenizer (Some brokenTokenizer);
       CallWithTagging false; CallUsingModel (Some demoModel)].
Proof.
  apply (configure_last_write_wins demoTokenizer "text"
           [CallWithTokenization false; CallUsingTokenizer (Some brokenTokenizer);
            CallWithTagging false; CallUsingModel (Some demoModel)]).
  intros H. repeat (apply elem_of_cons in H as [H|H]; [discriminate|]).
  by apply elem_of_nil in H.
Defined.

Lemma NewDocument_keeps_text_witness :
  ∃ doc err st',
    demoNew "Run!" (map docOpt [CallWithTagging false]) emptyStore
    = Some ((doc, err), st') ∧
    Document.Text doc = "Run!".
Proof.
  destruct (demoNew "Run!" (map docOpt [CallWithTagging false]) emptyStore)
    as [[[doc err] st']|] eqn:E; [|vm_compute in E; discriminate].
  exists doc, err, st'. split; [reflexivity|].
  exact (NewDocument_keeps_text demoTokenizer demoDefaultModel demoSegment "Run!"
           [CallWithTagging false] emptyStore doc err st' E).
Defined.

Lemma model_is_last_installed_or_default_witness :
  ∃ doc err st',
    demoNew "text"
      (map docOpt [CallUsingModel (Some demoModel); CallUsingModel None;
                   CallWithTagging false]) emptyStore
    = Some ((doc, err), st') ∧
    Document.Model doc =
      match last_asked asks_model None
              [CallUsingModel (Some demoModel); CallUsingModel None;
               CallWithTagging false] with
      | Some m => Some m
      | None =>
          demoDefaultModel
            (last_asked asks_tagging true
               [CallUsingModel (Some demoModel); CallUsingModel None;
                CallWithTagging false])
      end.
Proof.
  destruct (demoNew "text"
              (map docOpt [CallUsingModel (Some demoModel); CallUsingModel None;
                           CallWithTagging false]) emptyStore)
    as [[[doc err] st']|] eqn:E; [|vm_compute in E; discriminate].
  exists doc, err, st'. split; [reflexivity|].
  exact (model_is_last_installed_or_default demoTokenizer demoDefaultModel
           demoSegment "text"
           [CallUsingModel (Some demoModel); CallUsingModel None; CallWithTagging false]
           emptyStore doc err st' E).
Defined.

Lemma Tokens_copies_are_independent_witness :
  ∃ doc err st s st1,
    demoNew "Run!" (map docOpt []) emptyStore = Some ((doc, err), st) ∧
    Tokens doc st = Some (s, st1) ∧
    cells st1 = cells st ∧ ptrArrs st1 = ptrArrs st ∧ sentArrs st1 = sentArrs st ∧
    tokArrs st ⊆ tokArrs st1 ∧
    ∃ r st2 vs,
      Tokens doc st1 = Some (r, st2) ∧
      arr r ≠ arr s ∧
      shown_tokens st2 r = Some vs ∧
      shown_tokens st2 s = Some vs.
Proof.
  destruct (demoNew "Run!" (map docOpt []) emptyStore) as [[[doc err] st]|] eqn:E;
    [|vm_compute in E; discriminate].
  destruct (Tokens doc st) as [[s st1]|] eqn:ET.
  - exists doc, err, st, s, st1. split; [reflexivity|]. split; [exact ET|].
    exact (Tokens_copies_are_independent doc st s st1 ET).
  - exfalso. vm_compute in E. injection E as <- _ <-. vm_compute in ET.
    discriminate.
Defined.

Lemma defaults_run_every_stage_witness :
  ∃ doc st1,
    NewDocument demoTokenizer demoDefaultModel demoSegment "Run!" [] emptyStore
    = Some ((doc, None), st1) ∧
    Document.Model doc = Some demoModel ∧
    (∃ s, Sentences doc st1 = Some (s, st1) ∧
          shown_sentences st1 s = Some [mkSentence 0 4]) ∧
    (∃ s st2, Tokens doc st1 = Some (s, st2) ∧
              shown_tokens st2 s
              = Some [mkToken "Run" 0 3 "NN"; mkToken "!" 3 4 "NN"]).
Proof.
  apply (defaults_run_every_stage demoTokenizer demoDefaultModel demoSegment
           "Run!" emptyStore [mkSentence 0 4] [tok "Run" 0 3; tok "!" 3 4]
           demoModel [mkToken "Run" 0 3 "NN"; mkToken "!" 3 4 "NN"]);
    reflexivity.
Defined.

Lemma requested_stages_all_or_nothing_witness :
  ∃ doc st1,
    NewDocument demoTokenizer demoDefaultModel demoSegment "Run!"
      (map docOpt [CallWithSegmentation false; CallUsingModel (Some plainModel)])
      emptyStore
    = Some ((doc, None), st1) ∧
    (∃ s, Sentences doc st1 = Some (s, st1) ∧ shown_sentences st1 s = Some []) ∧
    (∃ s st2, Tokens doc st1 = Some (s, st2) ∧
              shown_tokens st2 s = Some [tok "Run" 0 3; tok "!" 3 4]).
Proof.
  apply (requested_stages_all_or_nothing demoTokenizer demoDefaultModel demoSegment
           "Run!" [CallWithSegmentation false; CallUsingModel (Some plainModel)]
           emptyStore).
  intros H. repeat (apply elem_of_cons in H as [H|H]; [discriminate|]).
  by apply elem_of_nil in H.
Defined.
